(** * Sequence-container benchmark harness: model and properties

    A shallow embedding of the benchmark program (element fixtures, creation
    and test policies, the [bench] driver) and of the result sink
    ([graphs.cpp]).  Containers are modelled by the sequence of elements they
    hold; iterators are positions in that sequence, [end(c)] being the length.
    Calls whose behaviour C++ leaves undefined yield [None]. *)

From Stdlib Require Import Ascii.
From stdpp Require Import base numbers list sorting strings pretty functions gmap.

(** ** Machine integers *)

(** [std::size_t] is an unsigned 64-bit integer: arithmetic wraps. *)
Definition SIZE_WIDTH : N := 64.
Definition SIZE_MAX : N := 2 ^ SIZE_WIDTH - 1.
Definition INT_MAX : Z := 2 ^ 31 - 1.

(** Conversion of a signed integer to [std::size_t]. *)
Definition to_size_t (z : Z) : N := Z.to_N (z `mod` 2 ^ Z.of_N SIZE_WIDTH).

(** [x + y] on [std::size_t]. *)
Definition size_add (x y : N) : N := ((x + y) `mod` 2 ^ SIZE_WIDTH)%N.

(** ** The part of the C++ standard library the program calls

    The algorithms below are the library's, not the program's; they are taken
    with the guarantees the standard gives for them.  [lcg_lib], further
    down, is an executable instance. *)

(** The requirement on a comparator handed to a sorting routine. *)
Record StrictWeakOrder {A} (lt : A → A → bool) : Prop := {
  swo_irrefl : ∀ x, lt x x = false;
  swo_trans : ∀ x y z, lt x y = true → lt y z = true → lt x z = true;
  swo_incomp : ∀ x y z, lt x y = false → lt y z = false → lt x z = false
}.

(** [sorted_by lt l]: no element is less than an element before it, the
    postcondition of [std::sort] and of [std::list::sort]. *)
Definition sorted_by {A} (lt : A → A → bool) : list A → Prop :=
  StronglySorted (λ x y, lt y x = false).

Class StdLib := {
  (** [std::mt19937] engine states, and the default-seeded engine *)
  mt19937 : Type;
  mt19937_default : mt19937;
  (** [std::shuffle(begin(v), end(v), g)] on a temporary engine [g] *)
  std_shuffle : list N → mt19937 → list N;
  std_shuffle_perm : ∀ l g, std_shuffle l g ≡ₚ l;
  (** [std::uniform_int_distribution<std::size_t>(lo, hi)(g)] *)
  uniform_int_distribution : N → N → mt19937 → N * mt19937;
  (** [std::sort(first, last, lt)] *)
  std_sort : ∀ A, (A → A → bool) → list A → list A;
  std_sort_perm : ∀ A lt (l : list A), std_sort A lt l ≡ₚ l;
  std_sort_sorted : ∀ A lt (l : list A),
    StrictWeakOrder lt → sorted_by lt (std_sort A lt l);
  (** [std::list<T>::sort()] *)
  list_sort : ∀ A, (A → A → bool) → list A → list A;
  list_sort_perm : ∀ A lt (l : list A), list_sort A lt l ≡ₚ l;
  list_sort_sorted : ∀ A lt (l : list A),
    StrictWeakOrder lt → sorted_by lt (list_sort A lt l);
  (** the order in which a [std::unordered_map<std::string, V>] is iterated *)
  unordered_iter : ∀ V, gmap string V → list (string * V);
  unordered_iter_perm : ∀ V (m : gmap string V),
    unordered_iter V m ≡ₚ map_to_list m
}.
Global Arguments std_sort {_ _} _ _.
Global Arguments list_sort {_ _} _ _.
Global Arguments unordered_iter {_ _} _.

(** ** Element types *)

(** The benchmarked value types.  Each has the identity field [a]; the rest
    is padding ([Trivial<N>::b], zeroed by every initialisation the program
    performs) or the constant string of [NonTrivial1]. *)
Inductive ValueType := Small | Medium | Large | Huge | Monster | NonTrivial.

(** An element, as far as the benchmarked operations read it: they compare
    and search on [a] only, and the rest of the object is the same in every
    element the program makes.  Statements that could tell apart two
    elements of equal identity are made on the identities. *)
Record Elem := mkElem { a : N }.

(** [operator<]: [a < other.a]. *)
Definition Elem_lt (x y : Elem) : bool := (a x <? a y)%N.

(** A value-initialised element ([T{}], [Container(size)]). *)
Definition Elem_default : Elem := mkElem 0.

(** ** Containers *)

Inductive Shape := Vector | List | Deque.

(** A container type, [std::vector<T>], [std::list<T>] or [std::deque<T>]. *)
Definition ContainerType : Type := Shape * ValueType.

Global Instance Shape_eq_dec : EqDecision Shape.
Proof. solve_decision. Defined.
Global Instance ValueType_eq_dec : EqDecision ValueType.
Proof. solve_decision. Defined.

(** The contents of a container, front to back. *)
Abbreviation Container := (list Elem).

(** What a creation policy hands to the test policies: a container, or for
    [SmartFilled] a [std::unique_ptr] to one (empty once reset). *)
Inductive Object :=
  | Plain (c : Container)
  | Owned (p : option Container).

(** [std::find_if(begin(c), end(c), p)]: the position of the first element
    satisfying [p], [end(c)] when there is none. *)
Fixpoint find_if (p : Elem → bool) (c : Container) : nat :=
  match c with
  | [] => 0
  | x :: c' => if p x then 0 else S (find_if p c')
  end.

(** [c.insert(it, x)]: [x] is placed before position [it]. *)
Definition insert_at {A} (it : nat) (x : A) (c : list A) : list A :=
  take it c ++ x :: drop it c.

(** [c.erase(it)]: [it] must be dereferenceable; erasing [end(c)] is
    undefined. *)
Definition erase (it : nat) (c : Container) : option Container :=
  if decide (it < length c) then Some (delete it c) else None.

(** [for (std::size_t i = from; i < from + n; ++i) s = body(i, s)] *)
Fixpoint for_loop {St} (n : nat) (i : N) (body : N → St → St) (s : St) : St :=
  match n with
  | 0 => s
  | S n' => for_loop n' (i + 1)%N body (body i s)
  end.

(** The same loop with a body that may fail. *)
Fixpoint for_loop_opt {St} (n : nat) (i : N) (body : N → St → option St)
    (s : St) : option St :=
  match n with
  | 0 => Some s
  | S n' => body i s ≫= for_loop_opt n' (i + 1)%N body
  end.

(** The indices a loop of [n] rounds from [i] goes through. *)
Definition indices (i : N) (n : nat) : list N :=
  (λ k, (i + N.of_nat k)%N) <$> seq 0 n.

(** Ascending by identity: every adjacent pair has
    [left.a <= right.a]. *)
Definition ascending (c : Container) : Prop :=
  Sorted (λ x y, (a x ≤ a y)%N) c.

(** ** Test policies on plain containers *)

(** [FillBack]: [std::fill_n(std::back_inserter(c), size, value)]. *)
Definition FillBack_run (c : Container) (size : N) : Container :=
  for_loop (N.to_nat size) 0 (λ _ c, c ++ [Elem_default]) c.

(** [FillFront]: [front_inserter] for list and deque, repeated
    [c.insert(begin(c), value)] for the vector. *)
Definition FillFront_run (c : Container) (size : N) : Container :=
  for_loop (N.to_nat size) 0 (λ _ c, insert_at 0 Elem_default c) c.

(** [Find]: the result of each scan is dropped. *)
Definition Find_run (c : Container) (size : N) : Container :=
  for_loop (N.to_nat size) 0
    (λ i c, let _ := find_if (λ v, (a v =? i)%N) c in c) c.

(** One iteration of [Insert::run]. *)
Definition Insert_step (size i : N) (c : Container) : Container :=
  let it := find_if (λ v, (a v =? i)%N) c in
  insert_at it (mkElem (size_add size i)) c.

Definition Insert_run (c : Container) (size : N) : Container :=
  for_loop 1000 0 (Insert_step size) c.

(** One iteration of [Remove::run]: the iterator found is erased as it is. *)
Definition Remove_step (i : N) (c : Container) : option Container :=
  let it := find_if (λ v, (a v =? i)%N) c in
  erase it c.

Definition Remove_run (c : Container) (size : N) : option Container :=
  for_loop_opt 1000 0 Remove_step c.

(** What the specification says of [Insert]: the new element goes right
    before the first element whose identity is [i], at the end if there is
    none. *)
Fixpoint insert_before_first (i : N) (x : Elem) (c : Container) : Container :=
  match c with
  | [] => [x]
  | y :: c' =>
      if decide (a y = i) then x :: y :: c' else y :: insert_before_first i x c'
  end.

(** Modelled from the spec: what the specification says of one step of
    [RandomSortedInsert], the new element goes right before the first
    element whose identity field is at least the drawn value [val], at the
    end if there is none. *)
Fixpoint insert_before_first_ge (val : N) (x : Elem) (c : Container)
    : Container :=
  match c with
  | [] => [x]
  | y :: c' =>
      if decide (val ≤ a y)%N then x :: y :: c'
      else y :: insert_before_first_ge val x c'
  end.

(** ** Policies that use the library or the program's statics *)

Section policies.
Context `{L : StdLib}.

(** [std::iota(begin(v), end(v), value)] with an [int] counter: every slot
    of [v] is overwritten with the counter, converted to [std::size_t].
    Incrementing the counter past [INT_MAX] is undefined in C++; the model
    goes on counting, and the statements about it bound the size. *)
Fixpoint std_iota (v : list N) (value : Z) : list N :=
  match v with
  | [] => []
  | _ :: v' => to_size_t value :: std_iota v' (value + 1)
  end.

(** The static data members of the policies: [FilledRandom<Container>::v]
    and [RandomSortedInsert<Container>::generator], one object for each
    container type the template is instantiated with. *)
Record Statics := mkStatics {
  FilledRandom_v : ContainerType → list N;
  RandomSortedInsert_generator : ContainerType → mt19937
}.

(** Static initialisation: empty vectors, default-seeded engines. *)
Definition Statics_init : Statics :=
  mkStatics (λ _, []) (λ _, mt19937_default).

(** The first half of [FilledRandom::make]: the cached vector of the
    container type [ct] after the size test. *)
Definition FilledRandom_prepare (ct : ContainerType) (size : N)
    (v : ContainerType → list N) : ContainerType → list N :=
  if decide (N.of_nat (length (v ct)) ≠ size) then
    let cleared : list N := [] in
    let resized := cleared ++ replicate (N.to_nat size - length cleared) 0%N in
    let filled := std_iota resized 0 in
    <[ct := std_shuffle filled mt19937_default]> v
  else v.

(** The second half: [for (auto val : v) c.push_back({val})]. *)
Definition FilledRandom_fill (v : list N) : Container :=
  foldl (λ c val, c ++ [mkElem val]) [] v.

Definition FilledRandom_make (ct : ContainerType) (size : N) (s : Statics)
    : Container * Statics :=
  let v' := FilledRandom_prepare ct size (FilledRandom_v s) in
  (FilledRandom_fill (v' ct), mkStatics v' (RandomSortedInsert_generator s)).

(** What the regenerating branch stores for a requested [size]. *)
Definition permutation_of_size (size : N) : list N :=
  std_shuffle (std_iota (replicate (N.to_nat size) 0%N) 0) mt19937_default.

(** [Sort]: [std::sort] on operator<, [c.sort()] for the list. *)
Definition Sort_run (ct : ContainerType) (c : Container) (size : N)
    : Container :=
  match ct.1 with
  | List => list_sort Elem_lt c
  | Vector | Deque => std_sort Elem_lt c
  end.

(** One iteration of [RandomSortedInsert::run]. *)
Definition RandomSortedInsert_step (cg : Container * mt19937)
    : Container * mt19937 :=
  let '(val, g') := uniform_int_distribution 0 (SIZE_MAX - 1) cg.2 in
  (insert_at (find_if (λ v, (val <=? a v)%N) cg.1) (mkElem val) cg.1, g').

Definition RandomSortedInsert_run (c : Container) (size : N) (g : mt19937)
    : Container * mt19937 :=
  for_loop (N.to_nat size) 0 (λ _, RandomSortedInsert_step) (c, g).

(** The values the first [n] iterations of [RandomSortedInsert::run] draw
    from the engine, [distribution(generator)] once an iteration, in the
    order drawn, and the engine they leave. *)
Fixpoint drawn_values (n : nat) (g : mt19937) : list N * mt19937 :=
  match n with
  | 0 => ([], g)
  | S n' =>
      let '(val, g') := uniform_int_distribution 0 (SIZE_MAX - 1) g in
      let '(vals, g'') := drawn_values n' g' in
      (val :: vals, g'')
  end.

(** *** The policy templates as data

    The constructors carry a prefix: [Empty], [Insert] and [Filter] name
    classes of the map library. *)

Inductive CreatePolicy :=
  | CEmpty | CFilled | CFilledRandom | CSmartFilled.

Inductive TestPolicy :=
  | TNoOp | TReserveSize | TFillBack | TFillFront | TFind | TInsert | TRemove
  | TSort | TSmartDelete | TRandomSortedInsert.

(** [CreatePolicy<Container>::make(size)] *)
Definition make (p : CreatePolicy) (ct : ContainerType) (size : N)
    (s : Statics) : Object * Statics :=
  match p with
  | CEmpty => (Plain [], s)
  | CFilled => (Plain (replicate (N.to_nat size) Elem_default), s)
  | CFilledRandom =>
      let '(c, s') := FilledRandom_make ct size s in (Plain c, s')
  | CSmartFilled => (Owned (Some (replicate (N.to_nat size) Elem_default)), s)
  end.

(** [Test<Container>::run(container, size)].  [None] when the call is
    undefined, or when the policy has no instance for the object (no
    [reserve] on a list or deque, no [reset] on a container). *)
Definition run_policy (t : TestPolicy) (ct : ContainerType) (o : Object)
    (size : N) (s : Statics) : option (Object * Statics) :=
  match t, o with
  | TNoOp, _ => Some (o, s)
  | TReserveSize, Plain c =>
      if decide (ct.1 = Vector) then Some (Plain c, s) else None
  | TFillBack, Plain c => Some (Plain (FillBack_run c size), s)
  | TFillFront, Plain c => Some (Plain (FillFront_run c size), s)
  | TFind, Plain c => Some (Plain (Find_run c size), s)
  | TInsert, Plain c => Some (Plain (Insert_run c size), s)
  | TRemove, Plain c => c' ← Remove_run c size; Some (Plain c', s)
  | TSort, Plain c => Some (Plain (Sort_run ct c size), s)
  | TRandomSortedInsert, Plain c =>
      let '(c', g') :=
        RandomSortedInsert_run c size (RandomSortedInsert_generator s ct) in
      Some (Plain c',
            mkStatics (FilledRandom_v s)
                      (<[ct := g']> (RandomSortedInsert_generator s)))
  | TSmartDelete, Owned _ => Some (Owned None, s)
  | _, _ => None
  end.

(** The variadic runner [run<Test, Rest...>(container, size)]. *)
Fixpoint run (tests : list TestPolicy) (ct : ContainerType) (o : Object)
    (size : N) (s : Statics) : option (Object * Statics) :=
  match tests with
  | [] => Some (o, s)
  | t :: rest =>
      '(o', s') ← run_policy t ct o size s; run rest ct o' size s'
  end.

(** The states of the statics a run can be in: the policies are the only
    code that touches them. *)
Inductive reachable : Statics → Prop :=
  | reachable_init : reachable Statics_init
  | reachable_make p ct size s :
      reachable s → reachable (make p ct size s).2
  | reachable_run t ct o size s o' s' :
      reachable s → run_policy t ct o size s = Some (o', s') → reachable s'.

(** Every cached vector is the one generated for its own length. *)
Definition cache_inv (v : ContainerType → list N) : Prop :=
  ∀ ct, v ct = permutation_of_size (N.of_nat (length (v ct))).

End policies.

(** ** The result sink ([graphs.cpp]) *)

(** Modelled from the spec: the struct [graphs::result] is declared in
    [graphs.hpp], which is not among the sources.  A Result Sample is
    (series label, size-as-group-label, averaged duration value); the fields
    are the ones [graphs.cpp] initialises and reads. *)
Record result := mkResult { serie : string; group : string; value : N }.

(** Modelled from the spec: the struct [graphs::graph] is declared in
    [graphs.hpp] too.  A Graph is a named, titled collection of Result
    Samples sharing a unit, built by [graph(name, title, unit)] with no
    results. *)
Record graph := mkGraph {
  name : string;
  title : string;
  unit_ : string;
  results : list result
}.

(** The globals of [graphs.cpp].  Graph objects live in [heap] and are
    referred to by address; [current_graph] and the entries of [all_graphs]
    are the shared pointers ([None] is the null pointer).  [cout] is the
    console trace, one line per entry. *)
Record Graphs := mkGraphs {
  heap : list graph;
  current_graph : option nat;
  all_graphs : list nat;
  cout : list string
}.

Definition Graphs_init : Graphs := mkGraphs [] None [] [].

(** [graphs::new_graph]: [std::make_shared] allocates a fresh object. *)
Definition new_graph (graph_name graph_title unit : string) (s : Graphs)
    : Graphs :=
  let p := length (heap s) in
  mkGraphs (heap s ++ [mkGraph graph_name graph_title unit []])
           (Some p)
           (all_graphs s ++ [p])
           (cout s ++ ["Start " +:+ graph_name]).

(** [graphs::new_result]: [current_graph] is dereferenced unchecked. *)
Definition new_result (serie group : string) (value : N) (s : Graphs)
    : option Graphs :=
  p ← current_graph s;
  g ← heap s !! p;
  let g' := mkGraph (name g) (title g) (unit_ g)
                    (results g ++ [mkResult serie group value]) in
  Some (mkGraphs (<[p := g']> (heap s))
                 (current_graph s)
                 (all_graphs s)
                 (cout s ++ [serie +:+ ":" +:+ group +:+ ":" +:+ pretty value])).

(** The calls the driver makes into the sink while it runs. *)
Inductive op :=
  | NewGraph (graph_name graph_title unit : string)
  | NewResult (serie group : string) (value : N).

Definition exec_op (o : op) (s : Graphs) : option Graphs :=
  match o with
  | NewGraph graph_name graph_title unit =>
      Some (new_graph graph_name graph_title unit s)
  | NewResult serie group value => new_result serie group value s
  end.

Fixpoint exec (ops : list op) (s : Graphs) : option Graphs :=
  match ops with
  | [] => Some s
  | o :: ops' => exec_op o s ≫= exec ops'
  end.

(** The arguments of the latest [new_graph] among [ops], if any. *)
Definition last_started (ops : list op) : option (string * string * string) :=
  foldl (λ acc o,
           match o with
           | NewGraph graph_name graph_title unit =>
               Some (graph_name, graph_title, unit)
           | NewResult _ _ _ => acc
           end) None ops.

(** What holds of the sink's globals after calls of which [started] is the
    latest [new_graph]: the graphs are listed in allocation order, the
    current graph is the last of them, and it is the one started last. *)
Definition Graphs_inv (started : option (string * string * string))
    (s : Graphs) : Prop :=
  all_graphs s = seq 0 (length (heap s))
  ∧ current_graph s = last (all_graphs s)
  ∧ match started with
    | None => heap s = []
    | Some (n, t, u) =>
        ∃ g, last (heap s) = Some g ∧ name g = n ∧ title g = t ∧ unit_ g = u
    end.

(** The line a call writes to the console. *)
Definition trace_line (o : op) : string :=
  match o with
  | NewGraph graph_name _ _ => "Start " +:+ graph_name
  | NewResult serie group value =>
      serie +:+ ":" +:+ group +:+ ":" +:+ pretty value
  end.

(** The samples emitted before the next graph is started. *)
Fixpoint samples_until_next (ops : list op) : list result :=
  match ops with
  | NewResult serie group value :: ops' =>
      mkResult serie group value :: samples_until_next ops'
  | _ => []
  end.

(** The graphs a sequence of calls describes, read front to back: each
    [new_graph] opens a graph that holds the samples up to the next one. *)
Fixpoint graphs_of (ops : list op) : list graph :=
  match ops with
  | [] => []
  | NewGraph graph_name graph_title unit :: ops' =>
      mkGraph graph_name graph_title unit (samples_until_next ops')
      :: graphs_of ops'
  | NewResult _ _ _ :: ops' => graphs_of ops'
  end.

(** A graph with further samples at the end of its results. *)
Definition add_results (g : graph) (rs : list result) : graph :=
  mkGraph (name g) (title g) (unit_ g) (results g ++ rs).

(** The text [atoi] reads: leading white space, an optional sign, then
    decimal digits up to the first other character. *)
Definition is_space (c : ascii) : bool :=
  let n := N_of_ascii c in ((n =? 32) || ((9 <=? n) && (n <=? 13)))%N.

Definition digit_of (c : ascii) : option Z :=
  let n := N_of_ascii c in
  if ((48 <=? n) && (n <=? 57))%N then Some (Z.of_N n - 48)%Z else None.

Fixpoint atoi_digits (acc : Z) (s : string) : Z :=
  match s with
  | EmptyString => acc
  | String c s' =>
      match digit_of c with
      | Some d => atoi_digits (10 * acc + d)%Z s'
      | None => acc
      end
  end.

Fixpoint skip_spaces (s : string) : string :=
  match s with
  | EmptyString => EmptyString
  | String c s' => if is_space c then skip_spaces s' else s
  end.

(** The number that text denotes, before any conversion to a C type. *)
Definition atoi_value (s : string) : Z :=
  match skip_spaces s with
  | String "-" s' => (- atoi_digits 0 s')%Z
  | String "+" s' => atoi_digits 0 s'
  | s' => atoi_digits 0 s'
  end.

Definition INT_MIN : Z := - 2 ^ 31.
Definition LONG_MIN : Z := - 2 ^ 63.
Definition LONG_MAX : Z := 2 ^ 63 - 1.

(** Conversion of a [long] to [int], modulo [2^32]. *)
Definition to_int (z : Z) : Z := ((z + 2 ^ 31) `mod` 2 ^ 32 - 2 ^ 31)%Z.

(** [strtol] in base 10: the number denoted, held to the range of
    [long]. *)
Definition strtol (s : string) : Z := LONG_MIN `max` (atoi_value s `min` LONG_MAX).

(** [atoi] returns an [int]: the C library computes [(int) strtol(s, NULL,
    10)].  ISO C leaves the result undefined when the number denoted does
    not fit an [int]; [in_int_range] tells when it does, and then [atoi]
    is that number. *)
Definition atoi (s : string) : Z := to_int (strtol s).

Definition in_int_range (s : string) : Prop :=
  (INT_MIN ≤ atoi_value s ≤ INT_MAX)%Z.

Definition numeric_cmp (lhs rhs : string) : bool := (atoi lhs <? atoi rhs)%Z.

(** [compute_values]: [results[result.group][result.serie] = result.value]
    for every result in order. *)
Definition compute_values (g : graph) : gmap string (gmap string N) :=
  foldl (λ (res : gmap string (gmap string N)) r,
           <[group r := <[serie r := value r]> (res !!! group r)]> res)
        ∅ (results g).

(** The value stored for a group and a series, if any. *)
Definition lookup2 (m : gmap string (gmap string N)) (k se : string)
    : option N :=
  m !! k ≫= λ inner, inner !! se.

(** The data table [graphs::output] writes for one graph: the series names
    of the header line, then one row for each group. *)
Record chart := mkChart {
  chart_name : string;
  header : list string;
  rows : list (string * list N)
}.

Section output.
Context `{L : StdLib}.

(** The vector [groups] after [std::sort(groups.begin(), groups.end(),
    numeric_cmp)]. *)
Definition sorted_groups (res : gmap string (gmap string N)) : list string :=
  std_sort numeric_cmp (unordered_iter res).*1.

(** The body of the first loop over [all_graphs].  [results.begin()] is
    dereferenced unchecked: a graph without results has no defined output. *)
Definition output_graph (g : graph) : option chart :=
  let res := compute_values g in
  first ← snd <$> head (unordered_iter res);
  let groups := sorted_groups res in
  Some (mkChart (name g)
                 (unordered_iter first).*1
                 ((λ group_title,
                     (group_title, (unordered_iter (res !!! group_title)).*2))
                    <$> groups)).

(** The lines of the data table, as written to the file. *)
Definition render_row (row : string * list N) : string :=
  "['" +:+ row.1 +:+ "'" +:+ foldr (λ v s, ", " +:+ pretty v +:+ s) "" row.2
       +:+ "],".

Definition render_chart (ch : chart) : list string :=
  ["function draw_" +:+ chart_name ch +:+ "(){";
   "var data = google.visualization.arrayToDataTable(["]
  ++ ["['x'" +:+ foldr (λ n s, ", '" +:+ n +:+ "'" +:+ s) "" (header ch)
            +:+ "],"]
  ++ (render_row <$> rows ch)
  ++ ["]);"].

(** [graphs::output(Output::GOOGLE)], up to the data tables: one chart for
    each pointer in [all_graphs], in order. *)
Definition output (s : Graphs) : option (list chart) :=
  mapM (λ p, heap s !! p ≫= output_graph) (all_graphs s).

End output.

(** Sizes of different widths, emitted out of order: 9 comes before 10 and
    100 in the table, where the order of the labels as strings would put it
    last. *)
Definition width_graphs : Graphs :=
  mkGraphs [mkGraph "find_8" "find - 8 byte" "us"
              [mkResult "vector" "100" 30; mkResult "vector" "9" 1;
               mkResult "list" "9" 2; mkResult "vector" "10" 3;
               mkResult "list" "100" 40; mkResult "list" "10" 4]]
           (Some 0) [0] [].

(** ** The driver *)

Inductive DurationUnit := microseconds | milliseconds.

(** [Clock::duration] counts nanoseconds in a signed 64-bit integer. *)
Definition ticks_per (u : DurationUnit) : Z :=
  match u with
  | microseconds => 1000
  | milliseconds => 1000000
  end.

(** [std::chrono::duration_cast<DurationUnit>(d).count()]: the division
    truncates toward zero. *)
Definition duration_cast (u : DurationUnit) (d : Z) : Z := d `quot` ticks_per u.

Definition REPEAT : N := 2.

(** What the run observes from outside: the successive readings of
    [Clock::now()], in nanoseconds, and the value found in each
    default-initialised [Clock::duration] object ([Clock::duration duration;]
    runs the defaulted constructor, which leaves the tick count
    indeterminate). *)
Record Env := mkEnv {
  Clock_now : nat → Z;
  indeterminate : nat → Z
}.

(** The time between the [k]-th reading of the clock and the next. *)
Definition elapsed (env : Env) (k : nat) : Z :=
  (Clock_now env (S k) - Clock_now env k)%Z.

Section driver.
Context `{L : StdLib}.

Record Process := mkProcess {
  statics : Statics;
  sink : Graphs;
  clock_reads : nat;
  junk_reads : nat
}.

Definition Process_init : Process := mkProcess Statics_init Graphs_init 0 0.

(** The body of the [REPEAT] loop of [bench]; [duration] is the accumulator,
    a signed 64-bit count taken here as an integer (the sums of a run stay
    far from its bounds). *)
Definition trial (env : Env) (ct : ContainerType) (create : CreatePolicy)
    (tests : list TestPolicy) (size : N) (dp : Z * Process)
    : option (Z * Process) :=
  let '(duration, p) := dp in
  let '(container, s1) := make create ct size (statics p) in
  let t0 : Z := Clock_now env (clock_reads p) in
  '(_, s2) ← run tests ct container size s1;
  let t1 : Z := Clock_now env (S (clock_reads p)) in
  Some ((duration + (t1 - t0))%Z,
        mkProcess s2 (sink p) (S (S (clock_reads p))) (junk_reads p)).

(** The value handed to [graphs::new_result]: [count() / REPEAT], the count
    converted to [std::size_t] for the unsigned division. *)
Definition emitted_value (u : DurationUnit) (duration : Z) : N :=
  (to_size_t (duration_cast u duration) `div` REPEAT)%N.

(** The body of the loop over [sizes] of [bench]. *)
Definition bench_size (env : Env) (ct : ContainerType) (u : DurationUnit)
    (create : CreatePolicy) (tests : list TestPolicy) (type : string)
    (p : Process) (size : Z) : option Process :=
  let duration := indeterminate env (junk_reads p) in
  let p0 := mkProcess (statics p) (sink p) (clock_reads p) (S (junk_reads p)) in
  '(duration, p1) ←
    for_loop_opt (N.to_nat REPEAT) 0
      (λ _, trial env ct create tests (to_size_t size)) (duration, p0);
  sink' ← new_result type (pretty size) (emitted_value u duration) (sink p1);
  Some (mkProcess (statics p1) sink' (clock_reads p1) (junk_reads p1)).

(** [bench<Container, DurationUnit, CreatePolicy, TestPolicy...>(type, sizes)] *)
Definition bench (env : Env) (ct : ContainerType) (u : DurationUnit)
    (create : CreatePolicy) (tests : list TestPolicy) (type : string)
    (sizes : list Z) (p : Process) : option Process :=
  foldl (λ op size, op ≫= λ p, bench_size env ct u create tests type p size)
        (Some p) sizes.

End driver.


(** A run in which every timed window lasts 4000 ns and the storage of
    [duration] happens to hold 1000000. *)
Definition env_junk : Env := mkEnv (λ k, 4000 * Z.of_nat k)%Z (λ _, 1000000%Z).

(** ** The benchmark suite ([bench<T>()] and [main]) *)

(** The calls in the body of [bench<T>()]: a graph is started, or a
    configuration is benchmarked on the container of a shape. *)
Inductive statement :=
  | SGraph (graph_name graph_title unit : string)
  | SBench (shape : Shape) (u : DurationUnit) (create : CreatePolicy)
           (tests : list TestPolicy) (type : string) (sizes : list Z).

Definition hundred_thousands : list Z :=
  [100000; 200000; 300000; 400000; 500000; 600000; 700000; 800000; 900000;
   1000000]%Z.

Definition ten_thousands : list Z :=
  [10000; 20000; 30000; 40000; 50000; 60000; 70000; 80000; 90000; 100000]%Z.

Definition thousands : list Z :=
  [1000; 2000; 3000; 4000; 5000; 6000; 7000; 8000; 9000; 10000]%Z.

Section suite.
Context `{L : StdLib}.

(** [sizeof(NonTrivial)] depends on the layout of [std::string]. *)
Variable sizeof_NonTrivial : N.

(** [sizeof(T)], as the static assertions have it for the trivial types. *)
Definition sizeof (T : ValueType) : N :=
  match T with
  | Small => 8
  | Medium => 32
  | Large => 128
  | Huge => 1024
  | Monster => 4 * 1024
  | NonTrivial => sizeof_NonTrivial
  end.

(** The graphs a value type gets: eight for a type as large as [Small],
    six otherwise. *)
Definition graphs_for (T : ValueType) : nat :=
  if (sizeof T =? 8)%N then 8 else 6.

(** The body of [bench<T>()], in order. *)
Definition bench_type_body (T : ValueType) : list statement :=
  let size_str : string := pretty (sizeof T) in
  [SGraph ("fill_back_" +:+ size_str)
          ("fill_back - " +:+ size_str +:+ " byte") "us";
   SBench Vector microseconds CEmpty [TReserveSize; TFillBack] "vector_pre"
          hundred_thousands;
   SBench Vector microseconds CEmpty [TFillBack] "vector" hundred_thousands;
   SBench List microseconds CEmpty [TFillBack] "list" hundred_thousands;
   SBench Deque microseconds CEmpty [TFillBack] "deque" hundred_thousands]
  ++ (if (sizeof T =? sizeof Small)%N then
        [SGraph ("fill_front_" +:+ size_str)
                ("fill_front - " +:+ size_str +:+ " byte") "ms";
         SBench Vector milliseconds CEmpty [TFillFront] "vector" ten_thousands;
         SBench List milliseconds CEmpty [TFillFront] "list" ten_thousands;
         SBench Deque milliseconds CEmpty [TFillFront] "deque" ten_thousands]
      else [])
  ++ [SGraph ("linear_search_" +:+ size_str)
             ("linear_search - " +:+ size_str +:+ " byte") "us";
      SBench Vector microseconds CFilledRandom [TFind] "vector" thousands;
      SBench List microseconds CFilledRandom [TFind] "list" thousands;
      SBench Deque microseconds CFilledRandom [TFind] "deque" thousands;
      SGraph ("random_insert_" +:+ size_str)
             ("random_insert - " +:+ size_str +:+ " byte") "ms";
      SBench Vector milliseconds CFilledRandom [TInsert] "vector" ten_thousands;
      SBench List milliseconds CFilledRandom [TInsert] "list" ten_thousands;
      SBench Deque milliseconds CFilledRandom [TInsert] "deque" ten_thousands;
      SGraph ("random_remove_" +:+ size_str)
             ("random_remove - " +:+ size_str +:+ " byte") "ms";
      SBench Vector milliseconds CFilledRandom [TRemove] "vector" ten_thousands;
      SBench List milliseconds CFilledRandom [TRemove] "list" ten_thousands;
      SBench Deque milliseconds CFilledRandom [TRemove] "deque" ten_thousands;
      SGraph ("sort_" +:+ size_str) ("sort - " +:+ size_str +:+ " byte") "ms";
      SBench Vector milliseconds CFilledRandom [TSort] "vector"
             hundred_thousands;
      SBench List milliseconds CFilledRandom [TSort] "list" hundred_thousands;
      SBench Deque milliseconds CFilledRandom [TSort] "deque" hundred_thousands;
      SGraph ("destruction_" +:+ size_str)
             ("destruction - " +:+ size_str +:+ " byte") "us";
      SBench Vector microseconds CSmartFilled [TSmartDelete] "vector"
             hundred_thousands;
      SBench List microseconds CSmartFilled [TSmartDelete] "list"
             hundred_thousands;
      SBench Deque microseconds CSmartFilled [TSmartDelete] "deque"
             hundred_thousands]
  ++ (if (sizeof T =? sizeof Small)%N then
        [SGraph "number_crunching" "number_crunching" "ms";
         SBench Vector milliseconds CEmpty [TRandomSortedInsert] "vector"
                ten_thousands;
         SBench List milliseconds CEmpty [TRandomSortedInsert] "list"
                ten_thousands;
         SBench Deque milliseconds CEmpty [TRandomSortedInsert] "deque"
                ten_thousands]
      else []).

Definition exec_statement (env : Env) (T : ValueType) (st : statement)
    (p : Process) : option Process :=
  match st with
  | SGraph graph_name graph_title unit =>
      Some (mkProcess (statics p)
                      (new_graph graph_name graph_title unit (sink p))
                      (clock_reads p) (junk_reads p))
  | SBench shape u create tests type sizes =>
      bench env (shape, T) u create tests type sizes p
  end.

Definition exec_statements (env : Env) (T : ValueType) (sts : list statement)
    (p : Process) : option Process :=
  foldl (λ op st, op ≫= exec_statement env T st) (Some p) sts.

(** [bench<T>()] *)
Definition bench_type (env : Env) (T : ValueType) (p : Process)
    : option Process :=
  exec_statements env T (bench_type_body T) p.

(** [main]: the six value types in turn, then the charts. *)
Definition main (env : Env) : option (Process * list chart) :=
  p ← foldl (λ op T, op ≫= bench_type env T) (Some Process_init)
        [Small; Medium; Large; Huge; Monster; NonTrivial];
  charts ← output (sink p);
  Some (p, charts).

End suite.

(** *** What makes a body defined

    A test policy is applicable to what the creation policy returns (a
    container, or an owning pointer to one). *)
Definition policy_ok (shape : Shape) (owned : bool) (t : TestPolicy) : bool :=
  match t with
  | TNoOp => true
  | TReserveSize => negb owned && bool_decide (shape = Vector)
  | TFillBack | TFillFront | TFind | TInsert | TSort | TRandomSortedInsert =>
      negb owned
  | TRemove => false
  | TSmartDelete => owned
  end.

(** A configuration whose runs are all defined: it has a size, and either it
    removes from a random permutation of at least 1000 elements, or it does
    not remove at all and its policies apply. *)
Definition returns_pointer (create : CreatePolicy) : bool :=
  match create with CSmartFilled => true | _ => false end.

Definition config_ok (create : CreatePolicy) (shape : Shape)
    (tests : list TestPolicy) (sizes : list Z) : bool :=
  match sizes with [] => false | _ :: _ => true end
  && match create, tests with
     | CFilledRandom, [TRemove] =>
         forallb (λ size, (1000 <=? size)%Z && (size <=? INT_MAX)%Z) sizes
     | _, _ => forallb (policy_ok shape (returns_pointer create)) tests
     end.

(** A body in which every graph started receives samples before the next
    one is started or the body ends, and every configuration is as above.
    [st] tells whether a graph is current, and whether it has samples. *)
Fixpoint body_ok (st : option bool) (sts : list statement) : bool :=
  match sts with
  | [] => match st with Some false => false | _ => true end
  | SGraph _ _ _ :: rest =>
      match st with Some false => false | _ => body_ok (Some false) rest end
  | SBench shape _ create tests _ sizes :: rest =>
      match st with
      | None => false
      | Some _ => config_ok create shape tests sizes && body_ok (Some true) rest
      end
  end.

Definition is_SGraph (st : statement) : bool :=
  match st with SGraph _ _ _ => true | SBench _ _ _ _ _ _ => false end.

Definition has_results (g : graph) : Prop := results g ≠ [].

Definition kind_of (o : Object) : bool :=
  match o with Plain _ => false | Owned _ => true end.

(** The sink between two statements of a body: the graphs are listed in
    order of creation and, with no graph current or wanted ([None]), every
    graph has samples; with a current graph ([Some full]) it is the last
    one, every earlier graph has samples, and so has the current one when
    [full]. *)
Definition sink_state (st : option bool) (s : Graphs) : Prop :=
  all_graphs s = seq 0 (length (heap s))
  ∧ match st with
    | None => Forall has_results (heap s)
    | Some full =>
        ∃ front g, heap s = front ++ [g]
          ∧ current_graph s = Some (length front)
          ∧ Forall has_results front
          ∧ (full = true → has_results g)
    end.

(** ** [r_pow.hpp] *)

(** What [r_pow] asks of its value type [T]: the value [T{1}] and
    [operator*]. *)
Class Multiplicative (T : Type) := { T_one : T; T_mul : T → T → T }.

(** [impl::r_pow<T, Exp>::op(base)] *)
Fixpoint r_pow_op {T} `{Multiplicative T} (Exp : nat) (base : T) : T :=
  match Exp with
  | 0 => T_one
  | S Exp' => T_mul (r_pow_op Exp' base) base
  end.

(** [r_pow<Exp>(base)] *)
Definition r_pow {T} `{Multiplicative T} (Exp : nat) (base : T) : T :=
  r_pow_op Exp base.

(** An unsigned integer type of [w] bits that is not narrower than [int]
    ([unsigned], [unsigned long], [unsigned long long]): products wrap.  A
    narrower unsigned type is promoted to [int] before the product, where
    overflow is undefined; the instance is not meant for those. *)
Definition unsigned_mult (w : N) : Multiplicative N :=
  {| T_one := 1%N; T_mul := λ x y, ((x * y) `mod` 2 ^ w)%N |}.

(** The integers, for a type [T] in whose range the products stay. *)
Definition Z_mult : Multiplicative Z := {| T_one := 1%Z; T_mul := Z.mul |}.

(** ** An executable instance of the library *)

(** A linear congruential engine stands in for the Mersenne twister. *)
Definition lcg_next (g : N) : N :=
  ((g * 6364136223846793005 + 1442695040888963407) `mod` 2 ^ 64)%N.

(** A shuffle by insertion at random positions. *)
Definition lcg_shuffle_step (ag : list N * N) (x : N) : list N * N :=
  let g' := lcg_next ag.2 in
  (insert_at (N.to_nat ((g' `div` 2 ^ 32) `mod` N.of_nat (S (length ag.1))))
             x ag.1,
   g').

Definition lcg_shuffle (l : list N) (g : N) : list N :=
  (foldl lcg_shuffle_step ([], g) l).1.

Definition lcg_uniform (lo hi g : N) : N * N :=
  let g' := lcg_next g in ((lo + g' `mod` (hi - lo + 1))%N, g').

Definition merge_sort_by {A} (lt : A → A → bool) : list A → list A :=
  @merge_sort A (λ x y, lt y x = false) (λ x y, decide (lt y x = false)).

(** The obligations of the instance. *)
Lemma lcg_shuffle_perm l g : lcg_shuffle l g ≡ₚ l.
Proof.
  unfold lcg_shuffle.
  cut (∀ ag, (foldl lcg_shuffle_step ag l).1 ≡ₚ ag.1 ++ l).
  { intros H. apply (H ([], g)). }
  induction l as [|x l IH]; intros ag; simpl.
  - by rewrite app_nil_r.
  - rewrite IH. unfold lcg_shuffle_step, insert_at. simpl.
    rewrite <- (Permutation_middle ag.1 l x), <- app_assoc. simpl.
    rewrite <- (Permutation_middle _ (drop _ ag.1 ++ l) x).
    by rewrite app_assoc, take_drop.
Qed.

Section merge_sort_by.
Context {A : Type} (lt : A → A → bool) (Hlt : StrictWeakOrder lt).

Local Instance not_less_trans : Transitive (λ x y, lt y x = false).
Proof. intros x y z Hxy Hyz. by apply (swo_incomp lt Hlt z y x). Qed.

Local Instance not_less_total : Total (λ x y, lt y x = false).
Proof.
  intros x y. destruct (lt y x) eqn:Hyx; [|by left]. right.
  destruct (lt x y) eqn:Hxy; [|done].
  by rewrite <- (swo_irrefl lt Hlt x), (swo_trans lt Hlt x y x).
Qed.

Lemma merge_sort_by_sorted l : sorted_by lt (merge_sort_by lt l).
Proof. unfold sorted_by, merge_sort_by. apply StronglySorted_merge_sort; apply _. Qed.

End merge_sort_by.

Lemma merge_sort_by_perm {A} (lt : A → A → bool) l : merge_sort_by lt l ≡ₚ l.
Proof. apply merge_sort_Permutation. Qed.

Definition lcg_lib : StdLib := {|
  mt19937 := N;
  mt19937_default := 5489%N;
  std_shuffle := lcg_shuffle;
  std_shuffle_perm := lcg_shuffle_perm;
  uniform_int_distribution := lcg_uniform;
  std_sort := @merge_sort_by;
  std_sort_perm := @merge_sort_by_perm;
  std_sort_sorted := λ A lt l H, merge_sort_by_sorted lt H l;
  list_sort := @merge_sort_by;
  list_sort_perm := @merge_sort_by_perm;
  list_sort_sorted := λ A lt l H, merge_sort_by_sorted lt H l;
  unordered_iter := λ V m, map_to_list m;
  unordered_iter_perm := λ V m, reflexivity _
|}.

(** ** Properties *)

(** *** Iterators and loops *)

Section sequence_facts.
Implicit Types (c : Container) (x : Elem) (p : Elem → bool).

Lemma find_if_le p c : find_if p c ≤ length c.
Proof. induction c as [|y c IH]; simpl; [lia|]. destruct (p y); simpl; lia. Qed.

Lemma find_if_end p c :
  find_if p c = length c ↔ Forall (λ y, p y = false) c.
Proof.
  induction c as [|y c IH]; simpl.
  - split; [constructor | done].
  - destruct (p y) eqn:Hy.
    + split; [done|]. intros H. inversion H; congruence.
    + rewrite Forall_cons. split.
      * intros [= Hc]. split; [done|]. by apply IH.
      * intros [_ Hc]. f_equal. by apply IH.
Qed.

Lemma length_insert_at it x c : length (insert_at it x c) = S (length c).
Proof.
  unfold insert_at. rewrite length_app, length_take. simpl. rewrite length_drop. lia.
Qed.

Lemma insert_at_perm it x c : insert_at it x c ≡ₚ x :: c.
Proof.
  unfold insert_at. rewrite <- Permutation_middle. by rewrite take_drop.
Qed.

(** Inserting at the iterator [find_if] returns, one element at a time. *)
Lemma insert_at_find_if_cons p x y c :
  insert_at (find_if p (y :: c)) x (y :: c) =
  if p y then x :: y :: c else y :: insert_at (find_if p c) x c.
Proof. simpl. by destruct (p y). Qed.

Lemma insert_at_find_if_eq i x c :
  insert_at (find_if (λ v, (a v =? i)%N) c) x c = insert_before_first i x c.
Proof.
  induction c as [|y c IH]; [done|].
  rewrite insert_at_find_if_cons. simpl.
  destruct (decide (a y = i)) as [Hy|Hy].
  - by rewrite (proj2 (N.eqb_eq _ _) Hy).
  - by rewrite (proj2 (N.eqb_neq _ _) Hy), IH.
Qed.

Lemma length_insert_before_first i x c :
  length (insert_before_first i x c) = S (length c).
Proof. by rewrite <- insert_at_find_if_eq, length_insert_at. Qed.

(** The two cases of the specification's wording. *)
Lemma insert_before_first_found i x pre y post :
  Forall (λ z, a z ≠ i) pre → a y = i →
  insert_before_first i x (pre ++ y :: post) = pre ++ x :: y :: post.
Proof.
  intros Hpre Hy. induction Hpre as [|z pre Hz _ IH]; simpl.
  - by rewrite decide_True.
  - by rewrite decide_False, IH.
Qed.

Lemma insert_before_first_absent i x c :
  Forall (λ z, a z ≠ i) c → insert_before_first i x c = c ++ [x].
Proof.
  induction 1 as [|z c Hz _ IH]; simpl; [done|]. by rewrite decide_False, IH.
Qed.

End sequence_facts.

Section loop_facts.
Context {St : Type}.

Lemma indices_S i n : indices i (S n) = i :: indices (i + 1) n.
Proof.
  unfold indices. simpl. rewrite <- fmap_S_seq, <- list_fmap_compose.
  f_equal; [lia|]. apply list_fmap_ext. intros _ k _. simpl. lia.
Qed.

Lemma for_loop_foldl n i (body : N → St → St) s :
  for_loop n i body s = foldl (λ s k, body k s) s (indices i n).
Proof.
  revert i s. induction n as [|n IH]; intros i s; [done|].
  rewrite indices_S. simpl. apply IH.
Qed.

Lemma for_loop_split n m i (body : N → St → St) s :
  for_loop (n + m) i body s =
  for_loop m (i + N.of_nat n) body (for_loop n i body s).
Proof.
  revert i s. induction n as [|n IH]; intros i s; simpl.
  - f_equal. lia.
  - rewrite IH. f_equal. lia.
Qed.

Lemma indices_bound i n k : k ∈ indices i n → (i ≤ k < i + N.of_nat n)%N.
Proof.
  unfold indices. intros (j & -> & Hj%elem_of_seq)%list_elem_of_fmap. lia.
Qed.

Lemma foldl_ext_in {B} (f g : St → B → St) s (l : list B) :
  (∀ s x, x ∈ l → f s x = g s x) → foldl f s l = foldl g s l.
Proof.
  revert s. induction l as [|x l IH]; intros s Hfg; [done|]. simpl.
  rewrite Hfg by left. apply IH. intros s' y Hy. apply Hfg. by right.
Qed.

End loop_facts.

(** *** Randomized insert *)

Lemma size_add_no_wrap x y : (x + y < 2 ^ 64)%N → size_add x y = (x + y)%N.
Proof. intros H. unfold size_add, SIZE_WIDTH. by apply N.mod_small. Qed.

Lemma length_foldl_insert (f : N → Elem) c (l : list N) :
  length (foldl (λ c i, insert_before_first i (f i) c) c l)
  = length c + length l.
Proof.
  revert c. induction l as [|i l IH]; intros c; simpl; [lia|].
  rewrite IH, length_insert_before_first. lia.
Qed.

(** C6: [Insert::run] makes exactly the 1000 insertions the specification
    describes: for i = 0, ..., 999 in turn, an element with identity
    [size + i] goes right before the first element whose identity is [i],
    or at the end when there is none; the container grows by 1000.  [size]
    is a target size, for which [size + 999] fits a [std::size_t]. *)
Theorem Insert_run_spec (c : Container) (size : N) :
  (size + 999 < 2 ^ 64)%N →
  Insert_run c size
  = foldl (λ c i, insert_before_first i (mkElem (size + i)) c) c
          (indices 0 1000)
  ∧ length (Insert_run c size) = length c + 1000.
Proof.
  intros Hsize.
  assert (Insert_run c size
          = foldl (λ c i, insert_before_first i (mkElem (size + i)) c) c
                  (indices 0 1000)) as Hrun.
  { unfold Insert_run. rewrite for_loop_foldl. apply foldl_ext_in.
    intros c' i Hi%indices_bound. unfold Insert_step.
    rewrite insert_at_find_if_eq, size_add_no_wrap; [done | lia]. }
  split; [done|].
  rewrite Hrun, (length_foldl_insert (λ i, mkElem (size + i))).
  unfold indices. by rewrite length_fmap, length_seq.
Qed.

Lemma Insert_run_spec_witness :
  (3 + 999 < 2 ^ 64)%N ∧
  length (Insert_run [mkElem 2; mkElem 0; mkElem 1] 3) = 3 + 1000.
Proof.
  split; [done|].
  apply (Insert_run_spec [mkElem 2; mkElem 0; mkElem 1] 3). done.
Defined.

(** The first rounds on a small container, as the code runs them. *)
Example Insert_first_rounds :
  for_loop 2 0 (Insert_step 3) [mkElem 2; mkElem 0; mkElem 1]
  = [mkElem 2; mkElem 3; mkElem 0; mkElem 4; mkElem 1].
Proof. reflexivity. Qed.

(** *** Randomized remove *)

Lemma Remove_step_present i pre y post :
  Forall (λ z, a z ≠ i) pre → a y = i →
  Remove_step i (pre ++ y :: post) = Some (pre ++ post).
Proof.
  intros Hpre Hy. unfold Remove_step, erase.
  assert (find_if (λ v, (a v =? i)%N) (pre ++ y :: post) = length pre) as ->.
  { induction Hpre as [|z pre Hz _ IH]; simpl.
    - by rewrite (proj2 (N.eqb_eq _ _) Hy).
    - by rewrite (proj2 (N.eqb_neq _ _) Hz), IH. }
  rewrite decide_True by (rewrite length_app; simpl; lia).
  f_equal. induction pre as [|z pre IH]; [done|]. simpl. f_equal. apply IH.
  by inversion Hpre.
Qed.

(** When no element has identity [i], the iterator is [end(c)] and the
    erase is undefined. *)
Lemma Remove_step_absent i (c : Container) :
  Forall (λ z, a z ≠ i) c → Remove_step i c = None.
Proof.
  intros Hc. unfold Remove_step, erase.
  assert (find_if (λ v, (a v =? i)%N) c = length c) as ->.
  { apply find_if_end. eapply Forall_impl; [done|].
    intros z Hz. by apply N.eqb_neq. }
  rewrite decide_False; [done | lia].
Qed.

Lemma split_at_first i (c : Container) :
  i ∈ a <$> c →
  ∃ pre y post, c = pre ++ y :: post ∧ Forall (λ z, a z ≠ i) pre ∧ a y = i.
Proof.
  induction c as [|z c IH]; simpl.
  - by intros ?%elem_of_nil.
  - intros Hi. destruct (decide (a z = i)) as [Hz|Hz].
    + by exists [], z, c.
    + apply elem_of_cons in Hi as [Hi|Hi]; [congruence|].
      destruct (IH Hi) as (pre & y & post & -> & Hpre & Hy).
      exists (z :: pre), y, post. split_and!; [done | by constructor | done].
Qed.

(** On a container holding the identities [lo], ..., [lo + len - 1], each
    once, the rounds [lo], [lo + 1], ... all find their element. *)
Lemma Remove_loop_on_range m lo len (c : Container) :
  a <$> c ≡ₚ N.of_nat <$> seq lo len → m ≤ len →
  ∃ c', for_loop_opt m (N.of_nat lo) Remove_step c = Some c'
        ∧ a <$> c' ≡ₚ N.of_nat <$> seq (lo + m) (len - m).
Proof.
  revert lo len c. induction m as [|m IH]; intros lo len c Hc Hm.
  - exists c. by rewrite Nat.add_0_r, Nat.sub_0_r.
  - destruct len as [|len]; [lia|]. simpl in Hc.
    destruct (split_at_first (N.of_nat lo) c) as (pre & y & post & -> & Hpre & Hy).
    { rewrite Hc. left. }
    simpl. rewrite (Remove_step_present _ _ _ _ Hpre Hy). simpl.
    rewrite fmap_app, fmap_cons, Hy, <- Permutation_middle, <- fmap_app in Hc.
    apply Permutation_cons_inv in Hc.
    destruct (IH (S lo) len (pre ++ post) Hc ltac:(lia)) as (c' & Hrun & Hc').
    exists c'. split.
    + by replace (N.of_nat lo + 1)%N with (N.of_nat (S lo)) by lia.
    + by replace (lo + S m) with (S lo + m) by lia.
Qed.

(** On a container filled with a permutation of 0..n-1, n >= 1000, every
    round of [Remove::run] finds its element: the runs of the program, whose
    sizes for this policy are 10000 to 100000, stay defined. *)
Lemma Remove_run_on_permutation (c : Container) (size : N) (n : nat) :
  a <$> c ≡ₚ N.of_nat <$> seq 0 n → 1000 ≤ n →
  ∃ c', Remove_run c size = Some c' ∧ length c' = n - 1000.
Proof.
  intros Hc Hn.
  destruct (Remove_loop_on_range 1000 0 n c Hc Hn) as (c' & Hrun & Hc').
  exists c'. split; [done|].
  apply Permutation_length in Hc'.
  by rewrite !length_fmap, length_seq in Hc'.
Qed.

(** C2, on the code: with no element of identity [i] the step is not a
    no-op; [c.erase(end(c))] is called, on the empty vector and on a vector
    holding 0..4 when 5 is sought, and the whole run has no defined
    result. *)
Theorem Remove_absent_erases_end :
  Remove_step 0 [] = None
  ∧ Remove_step 5 (mkElem <$> [3; 1; 4; 0; 2]%N) = None
  ∧ for_loop_opt 5 0 Remove_step (mkElem <$> [3; 1; 4; 0; 2]%N) = Some []
  ∧ Remove_run (mkElem <$> [3; 1; 4; 0; 2]%N) 5 = None.
Proof. by vm_compute. Qed.


(** *** Sorting *)

Lemma Elem_lt_swo : StrictWeakOrder Elem_lt.
Proof.
  unfold Elem_lt. split.
  - intros x. apply N.ltb_irrefl.
  - intros x y z ?%N.ltb_lt ?%N.ltb_lt. apply N.ltb_lt. lia.
  - intros x y z ?%N.ltb_ge ?%N.ltb_ge. apply N.ltb_ge. lia.
Qed.

Lemma Sorted_weaken {A} (R R' : relation A) l :
  (∀ x y, R x y → R' x y) → Sorted R l → Sorted R' l.
Proof.
  intros HR. induction 1 as [|x l _ IH Hhd]; constructor; [done|].
  destruct Hhd; constructor; auto.
Qed.

Lemma sorted_by_ascending (c : Container) : sorted_by Elem_lt c → ascending c.
Proof.
  intros H%StronglySorted_Sorted. unfold ascending.
  eapply Sorted_weaken; [|done].
  intros x y Hxy. unfold Elem_lt in Hxy. by apply N.ltb_ge.
Qed.

Lemma ascending_identities (c : Container) :
  ascending c → Sorted N.le (a <$> c).
Proof. unfold ascending. by apply Sorted_fmap. Qed.

(** Two ascending sequences with the same elements carry the same
    identities position by position; elements of equal identity may still
    be exchanged, [std::sort] not being stable. *)
Lemma ascending_identities_unique (c1 c2 : Container) :
  ascending c1 → ascending c2 → c1 ≡ₚ c2 → a <$> c1 = a <$> c2.
Proof.
  intros H1%ascending_identities H2%ascending_identities Hp.
  apply (Sorted_unique N.le); [done|done|by apply fmap_Permutation].
Qed.

Section sort.
Context `{L : StdLib}.

Lemma Sort_run_perm ct (c : Container) size : Sort_run ct c size ≡ₚ c.
Proof.
  unfold Sort_run. destruct ct.1; [apply std_sort_perm|apply list_sort_perm|apply std_sort_perm].
Qed.

Lemma Sort_run_ascending ct (c : Container) size : ascending (Sort_run ct c size).
Proof.
  apply sorted_by_ascending. unfold Sort_run.
  destruct ct.1;
    [apply std_sort_sorted|apply list_sort_sorted|apply std_sort_sorted];
    apply Elem_lt_swo.
Qed.

(** C8: for every container type, after [Sort] every adjacent pair has
    [left.a <= right.a] and the elements are the ones there were; applied
    to a sequence that is already sorted, [Sort] returns a sequence with the
    same identity at every position.  The statement is on the identities:
    [std::sort] is not stable, and [operator<] reads nothing but [a]. *)
Theorem Sort_sorted_idempotent (ct : ContainerType) (c : Container) (size : N) :
  ascending (Sort_run ct c size)
  ∧ Sort_run ct c size ≡ₚ c
  ∧ (ascending c → a <$> Sort_run ct c size = a <$> c).
Proof.
  split_and!.
  - apply Sort_run_ascending.
  - apply Sort_run_perm.
  - intros Hc.
    apply ascending_identities_unique; [apply Sort_run_ascending|done|].
    apply Sort_run_perm.
Qed.

End sort.

Lemma Sort_sorted_idempotent_witness :
  ascending (mkElem <$> [1; 2; 2; 5]%N)
  ∧ a <$> Sort_run (L:=lcg_lib) (List, Small) (mkElem <$> [1; 2; 2; 5]%N) 4
    = [1; 2; 2; 5]%N.
Proof.
  assert (ascending (mkElem <$> [1; 2; 2; 5]%N)) as H.
  { unfold ascending. simpl. repeat constructor; simpl; lia. }
  split; [exact H|].
  exact (proj2 (proj2 (Sort_sorted_idempotent (L:=lcg_lib) (List, Small)
                         (mkElem <$> [1; 2; 2; 5]%N) 4)) H).
Defined.

Example Sort_vector_example :
  Sort_run (L:=lcg_lib) (Vector, Small) (mkElem <$> [3; 1; 4; 0; 2]%N) 5
  = mkElem <$> [0; 1; 2; 3; 4]%N.
Proof. by vm_compute. Qed.

(** *** Randomized sorted insert *)

Lemma insert_keeps_ascending val (c : Container) :
  ascending c →
  ascending (insert_at (find_if (λ v, (val <=? a v)%N) c) (mkElem val) c).
Proof.
  unfold ascending. induction 1 as [|y c Hc IH Hhd].
  - repeat constructor.
  - rewrite insert_at_find_if_cons. destruct (val <=? a y)%N eqn:Hy.
    + apply N.leb_le in Hy. repeat constructor; done.
    + apply N.leb_gt in Hy. constructor; [done|].
      destruct c as [|z c].
      * constructor. simpl. lia.
      * rewrite insert_at_find_if_cons. destruct (val <=? a z)%N.
        -- constructor. simpl. lia.
        -- constructor. by inversion Hhd.
Qed.

Section sorted_insert.
Context `{L : StdLib}.

Lemma RandomSortedInsert_step_inv (cg : Container * mt19937) :
  ascending cg.1 →
  ascending (RandomSortedInsert_step cg).1
  ∧ length (RandomSortedInsert_step cg).1 = S (length cg.1).
Proof.
  intros Hc. unfold RandomSortedInsert_step.
  destruct (uniform_int_distribution 0 (SIZE_MAX - 1) cg.2) as [val g'].
  simpl. split; [by apply insert_keeps_ascending | apply length_insert_at].
Qed.

Lemma RandomSortedInsert_loop_inv n i (cg : Container * mt19937) :
  ascending cg.1 →
  ascending (for_loop n i (λ _, RandomSortedInsert_step) cg).1
  ∧ length (for_loop n i (λ _, RandomSortedInsert_step) cg).1
    = length cg.1 + n.
Proof.
  revert i cg. induction n as [|n IH]; intros i cg Hc; simpl.
  - split; [done | lia].
  - destruct (RandomSortedInsert_step_inv cg Hc) as [Hs Hl].
    destruct (IH (i + 1)%N _ Hs) as [Hs' Hl']. split; [done | lia].
Qed.

Lemma insert_at_find_if_ge val x (c : Container) :
  insert_at (find_if (λ v, (val <=? a v)%N) c) x c
  = insert_before_first_ge val x c.
Proof.
  induction c as [|y c IH]; [done|].
  rewrite insert_at_find_if_cons. simpl.
  destruct (decide (val ≤ a y)%N) as [Hy|Hy].
  - by rewrite (proj2 (N.leb_le _ _) Hy).
  - apply N.leb_nle in Hy. by rewrite Hy, IH.
Qed.

Lemma RandomSortedInsert_loop_draws n i (cg : Container * mt19937) :
  a <$> (for_loop n i (λ _, RandomSortedInsert_step) cg).1
    ≡ₚ (a <$> cg.1) ++ (drawn_values n cg.2).1
  ∧ (for_loop n i (λ _, RandomSortedInsert_step) cg).2
    = (drawn_values n cg.2).2.
Proof.
  revert i cg. induction n as [|n IH]; intros i [c g]; simpl.
  - by rewrite app_nil_r.
  - destruct (IH (i + 1)%N (RandomSortedInsert_step (c, g))) as [Hp Hg].
    rewrite Hp, Hg. unfold RandomSortedInsert_step. simpl.
    destruct (uniform_int_distribution 0 (SIZE_MAX - 1) g) as [val g'].
    simpl. destruct (drawn_values n g') as [vals g'']. simpl.
    split; [|done].
    rewrite insert_at_perm, fmap_cons. simpl.
    by rewrite <- Permutation_middle.
Qed.

(** C7: every iteration of [RandomSortedInsert::run] puts an element with
    the drawn value right before the first element whose identity is at
    least that value.  Started on the empty container, the state after any
    [k <= size] rounds is ascending by identity, holds [k] elements, and
    these carry exactly the [k] values drawn so far; the run goes on from
    that state, and with [k = size] it is the final container. *)
Theorem RandomSortedInsert_sorted (size : N) (g : mt19937) (k : nat) :
  k ≤ N.to_nat size →
  let mid := for_loop k 0 (λ _, RandomSortedInsert_step) ([], g) in
  (∀ c g0, RandomSortedInsert_step (c, g0)
           = let '(val, g') := uniform_int_distribution 0 (SIZE_MAX - 1) g0 in
             (insert_before_first_ge val (mkElem val) c, g'))
  ∧ ascending mid.1
  ∧ length mid.1 = k
  ∧ a <$> mid.1 ≡ₚ (drawn_values k g).1
  ∧ mid.2 = (drawn_values k g).2
  ∧ RandomSortedInsert_run [] size g
    = for_loop (N.to_nat size - k) (N.of_nat k)
               (λ _, RandomSortedInsert_step) mid.
Proof.
  intros Hk mid.
  destruct (RandomSortedInsert_loop_inv k 0 ([], g)) as [Hs Hl].
  { constructor. }
  destruct (RandomSortedInsert_loop_draws k 0 ([], g)) as [Hp Hg].
  split_and!; [| done | done | done | done |].
  - intros c g0. unfold RandomSortedInsert_step. simpl.
    destruct (uniform_int_distribution 0 (SIZE_MAX - 1) g0) as [val g'].
    by rewrite insert_at_find_if_ge.
  - unfold RandomSortedInsert_run.
    replace (N.to_nat size) with (k + (N.to_nat size - k)) at 1 by lia.
    by rewrite for_loop_split.
Qed.

End sorted_insert.

Lemma RandomSortedInsert_sorted_witness :
  5 ≤ N.to_nat 5
  ∧ ascending (RandomSortedInsert_run (L:=lcg_lib) [] 5 7%N).1
  ∧ length (RandomSortedInsert_run (L:=lcg_lib) [] 5 7%N).1 = 5
  ∧ a <$> (RandomSortedInsert_run (L:=lcg_lib) [] 5 7%N).1
    ≡ₚ (drawn_values (L:=lcg_lib) 5 7%N).1.
Proof.
  split; [simpl; lia|].
  pose proof (RandomSortedInsert_sorted (L:=lcg_lib) 5 7%N 5 ltac:(simpl; lia))
    as (_ & Hs & Hl & Hp & _).
  split_and!; [exact Hs | exact Hl | exact Hp].
Defined.

(** The first three rounds on the executable library: the values drawn and
    the container they leave. *)
Example RandomSortedInsert_example :
  a <$> (RandomSortedInsert_run (L:=lcg_lib) [] 3 7%N).1
  = merge_sort_by N.ltb (drawn_values (L:=lcg_lib) 3 7%N).1.
Proof. by vm_compute. Qed.

(** *** Random-permutation fill *)

Lemma to_size_t_small z : (0 ≤ z < 2 ^ 64)%Z → to_size_t z = Z.to_N z.
Proof. intros H. unfold to_size_t, SIZE_WIDTH. by rewrite Z.mod_small. Qed.

Lemma length_std_iota v z : length (std_iota v z) = length v.
Proof. revert z. induction v as [|x v IH]; intros z; simpl; [done|]. by rewrite IH. Qed.

(** While the [int] counter does not overflow, [std::iota] from 0 writes
    0, 1, ..., n-1. *)
Lemma std_iota_seq (v : list N) (z : nat) :
  (Z.of_nat (z + length v) ≤ INT_MAX + 1)%Z →
  std_iota v (Z.of_nat z) = N.of_nat <$> seq z (length v).
Proof.
  revert z. induction v as [|x v IH]; intros z Hz; simpl in *; [done|].
  f_equal.
  - rewrite to_size_t_small; unfold INT_MAX in *; lia.
  - replace (Z.of_nat z + 1)%Z with (Z.of_nat (S z)) by lia.
    apply IH. lia.
Qed.

Lemma FilledRandom_fill_fmap (v : list N) : FilledRandom_fill v = mkElem <$> v.
Proof.
  unfold FilledRandom_fill.
  cut (∀ acc, foldl (λ (c : Container) val, c ++ [mkElem val]) acc v
              = acc ++ (mkElem <$> v)).
  { intros H. apply (H []). }
  induction v as [|x v IH]; intros acc; simpl.
  - by rewrite app_nil_r.
  - by rewrite IH, <- app_assoc.
Qed.

Lemma fmap_a_mkElem (v : list N) : a <$> (mkElem <$> v) = v.
Proof. rewrite <- list_fmap_compose. apply list_fmap_id. Qed.

Section filled_random.
Context `{L : StdLib}.

Lemma length_permutation_of_size size :
  length (permutation_of_size size) = N.to_nat size.
Proof.
  unfold permutation_of_size.
  by rewrite (Permutation_length (std_shuffle_perm _ _)), length_std_iota,
    length_replicate.
Qed.

Lemma permutation_of_size_perm size :
  (Z.of_N size ≤ INT_MAX)%Z →
  permutation_of_size size ≡ₚ N.of_nat <$> seq 0 (N.to_nat size).
Proof.
  intros Hsize. unfold permutation_of_size. rewrite std_shuffle_perm.
  rewrite (std_iota_seq _ 0) by (rewrite length_replicate; lia).
  by rewrite length_replicate.
Qed.

Lemma FilledRandom_prepare_regenerates ct size v :
  N.of_nat (length (v ct)) ≠ size →
  FilledRandom_prepare ct size v = <[ct := permutation_of_size size]> v.
Proof.
  intros H. unfold FilledRandom_prepare, permutation_of_size.
  rewrite decide_True by done. simpl. by rewrite Nat.sub_0_r.
Qed.

Lemma FilledRandom_prepare_reuses ct size v :
  N.of_nat (length (v ct)) = size → FilledRandom_prepare ct size v = v.
Proof.
  intros H. unfold FilledRandom_prepare. rewrite decide_False; [done|]. by intros ?.
Qed.

Lemma cache_inv_prepare ct size v :
  cache_inv v → cache_inv (FilledRandom_prepare ct size v).
Proof.
  intros Hv. destruct (decide (N.of_nat (length (v ct)) = size)) as [Heq|Hne].
  - by rewrite FilledRandom_prepare_reuses.
  - rewrite FilledRandom_prepare_regenerates by done. intros ct'.
    destruct (decide (ct = ct')) as [<-|Hct].
    + rewrite fn_lookup_insert, length_permutation_of_size. by rewrite N2Nat.id.
    + rewrite fn_lookup_insert_ne by done. apply Hv.
Qed.

Lemma cache_inv_lookup ct size v :
  cache_inv v → FilledRandom_prepare ct size v ct = permutation_of_size size.
Proof.
  intros Hv. destruct (decide (N.of_nat (length (v ct)) = size)) as [Heq|Hne].
  - rewrite FilledRandom_prepare_reuses by done. by rewrite (Hv ct), Heq.
  - rewrite FilledRandom_prepare_regenerates by done. apply fn_lookup_insert.
Qed.

Lemma reachable_cache_inv s : reachable s → cache_inv (FilledRandom_v s).
Proof.
  induction 1 as [|p ct size s _ IH|t ct o size s o' s' _ IH Hrun].
  - intros ct. simpl. unfold permutation_of_size. simpl.
    symmetry. apply Permutation_nil_r, std_shuffle_perm.
  - destruct p; simpl; try done. by apply cache_inv_prepare.
  - destruct t, o; simpl in Hrun; simplify_option_eq; try done.
    destruct (RandomSortedInsert_run _ _ _). by simplify_eq.
Qed.

(** C3: whatever the run did before, [FilledRandom::make] fills every
    container type (each shape, each value type) with the same sequence for
    a given size: the containers built for two container types, in any two
    reachable states (hence in every repetition), are equal element for
    element, and their identity fields are the permutation generated for
    that size. *)
Theorem FilledRandom_shape_independent (s1 s2 : Statics)
    (ct1 ct2 : ContainerType) (size : N) :
  reachable s1 → reachable s2 →
  (FilledRandom_make ct1 size s1).1 = (FilledRandom_make ct2 size s2).1
  ∧ a <$> (FilledRandom_make ct1 size s1).1 = permutation_of_size size.
Proof.
  intros H1%reachable_cache_inv H2%reachable_cache_inv.
  unfold FilledRandom_make. simpl.
  rewrite !FilledRandom_fill_fmap, !cache_inv_lookup by done.
  split; [done | apply fmap_a_mkElem].
Qed.

(** C4: for every size an [int] can hold, after [FilledRandom::make] the
    cached vector of the container type is a permutation of 0..size-1, each
    value occurring exactly once, and the identity fields of the container
    built are that vector, in order. *)
Theorem FilledRandom_is_permutation (s : Statics) (ct : ContainerType)
    (size : N) :
  reachable s → (Z.of_N size ≤ INT_MAX)%Z →
  let r := FilledRandom_make ct size s in
  FilledRandom_v r.2 ct ≡ₚ N.of_nat <$> seq 0 (N.to_nat size)
  ∧ NoDup (FilledRandom_v r.2 ct)
  ∧ (∀ k, k ∈ FilledRandom_v r.2 ct ↔ (k < size)%N)
  ∧ a <$> r.1 = FilledRandom_v r.2 ct.
Proof.
  intros Hs%reachable_cache_inv Hsize r. unfold r, FilledRandom_make. simpl.
  rewrite FilledRandom_fill_fmap, cache_inv_lookup by done.
  pose proof (permutation_of_size_perm size Hsize) as Hperm.
  split_and!; [done | | | apply fmap_a_mkElem].
  - rewrite Hperm. apply (NoDup_fmap_2 _), NoDup_seq.
  - intros k. rewrite Hperm, list_elem_of_fmap. split.
    + intros (j & -> & Hj%elem_of_seq). lia.
    + intros Hk. exists (N.to_nat k). split; [lia|]. apply elem_of_seq. lia.
Qed.

(** C5, as the code has it: the cache is a static member of the policy
    template, one vector for each container type.  A call for a container
    type whose own cached vector has the requested size changes nothing; a
    call with another size regenerates that container type's vector; the
    vectors of the other container types are never touched. *)
Theorem FilledRandom_cache_per_container_type (s : Statics)
    (ct : ContainerType) (size : N) :
  let s' := (FilledRandom_make ct size s).2 in
  (N.of_nat (length (FilledRandom_v s ct)) = size → s' = s)
  ∧ (N.of_nat (length (FilledRandom_v s ct)) ≠ size →
     FilledRandom_v s' ct = permutation_of_size size)
  ∧ (∀ ct', ct' ≠ ct → FilledRandom_v s' ct' = FilledRandom_v s ct')
  ∧ RandomSortedInsert_generator s' = RandomSortedInsert_generator s.
Proof.
  unfold FilledRandom_make. simpl. split_and!; [| | |done].
  - intros Heq. rewrite FilledRandom_prepare_reuses by done. by destruct s.
  - intros Hne. rewrite FilledRandom_prepare_regenerates by done.
    apply fn_lookup_insert.
  - intros ct' Hct.
    destruct (decide (N.of_nat (length (FilledRandom_v s ct)) = size)).
    + by rewrite FilledRandom_prepare_reuses.
    + rewrite FilledRandom_prepare_regenerates by done.
      by apply fn_lookup_insert_ne.
Qed.

End filled_random.

Lemma FilledRandom_shape_independent_witness :
  (FilledRandom_make (L:=lcg_lib) (Vector, Small) 4 Statics_init).1
  = (FilledRandom_make (L:=lcg_lib) (List, Huge) 4
       (FilledRandom_make (L:=lcg_lib) (List, Huge) 7 Statics_init).2).1.
Proof.
  apply (FilledRandom_shape_independent (L:=lcg_lib)).
  - apply reachable_init.
  - apply (reachable_make CFilledRandom (List, Huge) 7), reachable_init.
Defined.

Lemma FilledRandom_is_permutation_witness :
  (Z.of_N 5 ≤ INT_MAX)%Z
  ∧ FilledRandom_v (FilledRandom_make (L:=lcg_lib) (Deque, Small) 5
                      Statics_init).2 (Deque, Small)
    ≡ₚ N.of_nat <$> seq 0 (N.to_nat 5).
Proof.
  assert (Z.of_N 5 ≤ INT_MAX)%Z as H by (by vm_compute).
  split; [exact H|].
  exact (proj1 (FilledRandom_is_permutation (L:=lcg_lib) Statics_init
                  (Deque, Small) 5 reachable_init H)).
Defined.

Lemma FilledRandom_cache_per_container_type_witness :
  let s := (FilledRandom_make (L:=lcg_lib) (Vector, Small) 3 Statics_init).2 in
  let s' := (FilledRandom_make (L:=lcg_lib) (List, Small) 3 s).2 in
  N.of_nat (length (FilledRandom_v s (List, Small))) ≠ 3%N
  ∧ (List, Small) ≠ (Vector, Small)
  ∧ FilledRandom_v s' (List, Small) = permutation_of_size (L:=lcg_lib) 3
  ∧ FilledRandom_v s' (Vector, Small) = FilledRandom_v s (Vector, Small)
  ∧ RandomSortedInsert_generator s' = RandomSortedInsert_generator s.
Proof.
  pose proof (FilledRandom_cache_per_container_type (L:=lcg_lib)
    (FilledRandom_make (L:=lcg_lib) (Vector, Small) 3 Statics_init).2
    (List, Small) 3) as (_ & Hregen & Hother & Hgen).
  assert (H3 : N.of_nat (length (FilledRandom_v
    (FilledRandom_make (L:=lcg_lib) (Vector, Small) 3 Statics_init).2
    (List, Small))) ≠ 3%N) by (vm_compute; discriminate).
  assert (Hne : (Vector, Small) ≠ (List, Small)) by discriminate.
  split_and!; [exact H3 | discriminate | exact (Hregen H3)
              | exact (Hother _ Hne) | exact Hgen].
Defined.

(** C5, as the specification states it, fails: the permutation is not
    cached process-wide.  After the vector has been filled for size 3, so
    that a cached permutation of that size exists, the first fill of a list
    for the same size does not leave the cache as it is: the list's own
    vector, still empty, is generated. *)
Lemma FilledRandom_cache_not_process_wide :
  let s := (FilledRandom_make (L:=lcg_lib) (Vector, Small) 3 Statics_init).2 in
  let s' := (FilledRandom_make (L:=lcg_lib) (List, Small) 3 s).2 in
  length (FilledRandom_v s (Vector, Small)) = 3
  ∧ FilledRandom_v s (List, Small) = []
  ∧ length (FilledRandom_v s' (List, Small)) = 3
  ∧ FilledRandom_v s' ≠ FilledRandom_v s.
Proof.
  split_and!; [by vm_compute .. |].
  intros H. apply (f_equal (λ v, length (v (List, Small)))) in H.
  by vm_compute in H.
Qed.

(** *** The result sink *)


Lemma last_seq n : last (seq 0 n) = match n with 0 => None | S k => Some k end.
Proof.
  destruct n as [|k]; [done|]. by rewrite seq_S, last_snoc.
Qed.

Lemma Graphs_inv_current started s :
  Graphs_inv started s →
  match started with
  | None => current_graph s = None
  | Some (n, t, u) =>
      ∃ g, current_graph s = Some (pred (length (heap s)))
           ∧ heap s !! pred (length (heap s)) = Some g
           ∧ name g = n ∧ title g = t ∧ unit_ g = u
  end.
Proof.
  intros (Hall & Hcur & Hst). rewrite Hcur, Hall, last_seq.
  destruct started as [[[n t] u]|].
  - destruct Hst as (g & Hg & ?). exists g. rewrite last_lookup in Hg.
    destruct (heap s); [done|]. done.
  - by rewrite Hst.
Qed.

Lemma Graphs_inv_new_graph started n t u s :
  Graphs_inv started s → Graphs_inv (Some (n, t, u)) (new_graph n t u s).
Proof.
  intros (Hall & Hcur & Hst). unfold Graphs_inv, new_graph. simpl.
  rewrite length_app, !last_snoc. simpl. split_and!; [|done|by eexists].
  by rewrite Nat.add_1_r, seq_S, Hall.
Qed.

Lemma Graphs_inv_new_result started serie group value s s' :
  Graphs_inv started s → new_result serie group value s = Some s' →
  Graphs_inv started s'.
Proof.
  intros Hinv Hres. pose proof (Graphs_inv_current _ _ Hinv) as Hcur.
  destruct Hinv as (Hall & Hlast & Hst). unfold new_result in Hres.
  destruct started as [[[n t] u]|]; [|by rewrite Hcur in Hres].
  destruct Hcur as (g & Hp & Hg & Hn & Ht & Hu).
  rewrite Hp in Hres. simpl in Hres. rewrite Hg in Hres. simpl in Hres.
  injection Hres as <-. unfold Graphs_inv. simpl.
  rewrite length_insert. split_and!; [done | by rewrite <- Hp |].
  eexists. rewrite last_lookup, length_insert. split.
  - apply list_lookup_insert_eq. by apply lookup_lt_Some in Hg.
  - done.
Qed.

Lemma last_started_snoc ops o :
  last_started (ops ++ [o])
  = match o with
    | NewGraph n t u => Some (n, t, u)
    | NewResult _ _ _ => last_started ops
    end.
Proof. unfold last_started. by rewrite foldl_app. Qed.

Lemma exec_snoc ops o s : exec (ops ++ [o]) s = exec ops s ≫= exec_op o.
Proof.
  revert s. induction ops as [|o' ops IH]; intros s; simpl.
  - by destruct (exec_op o s).
  - destruct (exec_op o' s); simpl; [apply IH | done].
Qed.

Lemma exec_Graphs_inv ops s :
  exec ops Graphs_init = Some s → Graphs_inv (last_started ops) s.
Proof.
  revert s. induction ops as [|o ops IH] using rev_ind; intros s Hexec.
  - injection Hexec as <-. by split_and!.
  - rewrite exec_snoc in Hexec. rewrite last_started_snoc.
    destruct (exec ops Graphs_init) as [s0|]; [|done]. simpl in Hexec.
    specialize (IH s0 eq_refl). destruct o as [n t u|serie group value].
    + injection Hexec as <-. by eapply Graphs_inv_new_graph.
    + by eapply Graphs_inv_new_result.
Qed.

(** C10: in every state the sink reaches from its initial one, the current
    graph is the last entry of [all_graphs].  With no [new_graph] call so
    far [new_result] dereferences the null [current_graph] and has no
    defined result; after at least one, it succeeds and appends the sample
    to the results of the graph started last, leaving every other graph,
    [current_graph] and [all_graphs] as they were. *)
Theorem new_result_safety (ops : list op) (s : Graphs)
    (serie group : string) (value : N) :
  exec ops Graphs_init = Some s →
  current_graph s = last (all_graphs s)
  ∧ match last_started ops with
    | None =>
        current_graph s = None ∧ new_result serie group value s = None
    | Some (n, t, u) =>
        ∃ p g,
          current_graph s = Some p
          ∧ heap s !! p = Some g
          ∧ g = mkGraph n t u (results g)
          ∧ new_result serie group value s
            = Some (mkGraphs
                      (<[p := mkGraph n t u
                                (results g ++ [mkResult serie group value])]>
                         (heap s))
                      (Some p)
                      (all_graphs s)
                      (cout s ++ [serie +:+ ":" +:+ group +:+ ":"
                                        +:+ pretty value]))
    end.
Proof.
  intros Hinv%exec_Graphs_inv.
  pose proof (Graphs_inv_current _ _ Hinv) as Hcur.
  split; [apply Hinv|].
  destruct (last_started ops) as [[[n t] u]|].
  - destruct Hcur as (g & Hp & Hg & <- & <- & <-).
    exists (pred (length (heap s))), g. split_and!; [done | done | by destruct g |].
    unfold new_result. rewrite Hp. simpl. by rewrite Hg.
  - split; [done|]. unfold new_result. by rewrite Hcur.
Qed.

Lemma new_result_safety_witness :
  exec [NewGraph "sort_8" "sort - 8 byte" "ms"; NewResult "vector" "100000" 7;
        NewGraph "find_8" "find - 8 byte" "us"] Graphs_init
  = Some (mkGraphs
            [mkGraph "sort_8" "sort - 8 byte" "ms"
                     [mkResult "vector" "100000" 7];
             mkGraph "find_8" "find - 8 byte" "us" []]
            (Some 1) [0; 1]
            ["Start sort_8"; "vector:100000:7"; "Start find_8"])
  ∧ Some 1 = last [0; 1].
Proof.
  assert (exec [NewGraph "sort_8" "sort - 8 byte" "ms";
                NewResult "vector" "100000" 7;
                NewGraph "find_8" "find - 8 byte" "us"] Graphs_init
          = Some (mkGraphs
                    [mkGraph "sort_8" "sort - 8 byte" "ms"
                             [mkResult "vector" "100000" 7];
                     mkGraph "find_8" "find - 8 byte" "us" []]
                    (Some 1) [0; 1]
                    ["Start sort_8"; "vector:100000:7"; "Start find_8"])) as H.
  { by vm_compute. }
  split; [exact H|].
  exact (proj1 (new_result_safety _ _ "list" "1000" 3 H)).
Defined.

Example new_result_without_graph :
  new_result "vector" "1000" 12 Graphs_init = None.
Proof. reflexivity. Qed.

(** *** The rendered data table *)

Lemma numeric_cmp_swo : StrictWeakOrder numeric_cmp.
Proof.
  unfold numeric_cmp. split.
  - intros x. apply Z.ltb_irrefl.
  - intros x y z ?%Z.ltb_lt ?%Z.ltb_lt. apply Z.ltb_lt. lia.
  - intros x y z ?%Z.ltb_ge ?%Z.ltb_ge. apply Z.ltb_ge. lia.
Qed.

Lemma StronglySorted_weaken {A} (R R' : relation A) l :
  (∀ x y, R x y → R' x y) → StronglySorted R l → StronglySorted R' l.
Proof.
  intros HR. induction 1 as [|x l _ IH Hall]; constructor; [done|].
  eapply Forall_impl; [done|]. auto.
Qed.

(** The groups of a graph are the keys of the table [compute_values]
    builds. *)
Lemma compute_values_groups (g : graph) k :
  is_Some (compute_values g !! k) ↔ k ∈ group <$> results g.
Proof.
  unfold compute_values.
  cut (∀ (l : list result) (m : gmap string (gmap string N)),
    is_Some (foldl (λ (res : gmap string (gmap string N)) r,
                      <[group r := <[serie r := value r]> (res !!! group r)]> res)
                   m l !! k)
    ↔ is_Some (m !! k) ∨ k ∈ group <$> l).
  { intros H. rewrite H, lookup_empty. pose proof (@is_Some_None (gmap string N)).
    tauto. }
  induction l as [|r l IH]; intros m; simpl.
  - rewrite elem_of_nil. tauto.
  - rewrite IH, lookup_insert_is_Some, elem_of_cons.
    destruct (decide (group r = k)) as [Heq|Hne].
    + pose proof (eq_sym Heq). tauto.
    + assert (k ≠ group r) by congruence. tauto.
Qed.

(** [atoi] reads back what [std::to_string] prints: the labels the driver
    emits parse to the sizes they were made from. *)
Lemma digit_of_pretty_N_char d :
  (d < 10)%N → digit_of (pretty_N_char d) = Some (Z.of_N d).
Proof.
  intros Hd.
  assert (d = 0 ∨ d = 1 ∨ d = 2 ∨ d = 3 ∨ d = 4 ∨ d = 5 ∨ d = 6 ∨ d = 7
          ∨ d = 8 ∨ d = 9)%N as Hcases by lia.
  repeat destruct Hcases as [->|Hcases]; try subst d; reflexivity.
Qed.

Lemma atoi_digit_head d s :
  (d < 10)%N →
  atoi_value (String (pretty_N_char d) s) = atoi_digits 0 (String (pretty_N_char d) s).
Proof.
  intros Hd.
  assert (d = 0 ∨ d = 1 ∨ d = 2 ∨ d = 3 ∨ d = 4 ∨ d = 5 ∨ d = 6 ∨ d = 7
          ∨ d = 8 ∨ d = 9)%N as Hcases by lia.
  repeat destruct Hcases as [->|Hcases]; try subst d; reflexivity.
Qed.

Lemma atoi_digits_pretty_N_go x :
  ∃ k : Z, (0 ≤ k)%Z ∧ ∀ s acc,
    atoi_digits acc (pretty_N_go x s)
    = atoi_digits (acc * 10 ^ k + Z.of_N x)%Z s.
Proof.
  induction (N.lt_wf_0 x) as [x _ IH].
  destruct (decide (0 < x)%N) as [Hx|Hx].
  - destruct (IH (x `div` 10)%N) as (k & Hk & IHk).
    { by apply N.div_lt. }
    exists (k + 1)%Z. split; [lia|]. intros s acc.
    rewrite pretty_N_go_step, IHk by done. simpl.
    rewrite digit_of_pretty_N_char by (by apply N.mod_lt).
    f_equal. rewrite Z.pow_add_r, Z.pow_1_r by lia.
    rewrite (N.div_mod x 10) at 3 by done.
    rewrite N2Z.inj_add, N2Z.inj_mul. change (Z.of_N 10) with 10%Z. ring.
  - assert (x = 0%N) as -> by lia. exists 0%Z. split; [done|]. intros s acc.
    rewrite pretty_N_go_0. f_equal. lia.
Qed.

Lemma atoi_pretty_N_go x s :
  (0 < x)%N → atoi_value (pretty_N_go x s) = atoi_digits 0 (pretty_N_go x s).
Proof.
  revert s. induction (N.lt_wf_0 x) as [x _ IH]; intros s Hx.
  rewrite pretty_N_go_step by done.
  destruct (decide (0 < x `div` 10)%N) as [Hq|Hq].
  - apply IH; [by apply N.div_lt | done].
  - destruct (x `div` 10)%N as [|q]; [|by destruct Hq].
    rewrite pretty_N_go_0. apply atoi_digit_head. by apply N.mod_lt.
Qed.

Lemma atoi_digits_pretty_pos (q : positive) :
  atoi_digits 0 (pretty_N_go (N.pos q) "") = Z.pos q.
Proof.
  destruct (atoi_digits_pretty_N_go (N.pos q)) as (k & _ & Hk).
  by rewrite Hk.
Qed.

Lemma atoi_value_to_string (z : Z) : atoi_value (pretty z) = z.
Proof.
  destruct z as [|q|q]; [done| |].
  - unfold pretty, pretty_Z, pretty, pretty_positive, pretty, pretty_N.
    rewrite decide_False by done.
    rewrite atoi_pretty_N_go by done. apply atoi_digits_pretty_pos.
  - unfold pretty, pretty_Z, pretty, pretty_positive, pretty, pretty_N.
    rewrite decide_False by done.
    change (atoi_value ("-" +:+ pretty_N_go (N.pos q) ""))
      with (- atoi_digits 0 (pretty_N_go (N.pos q) ""))%Z.
    by rewrite atoi_digits_pretty_pos.
Qed.

(** Where the number denoted fits an [int], [atoi] returns it. *)
Lemma atoi_in_range (s : string) : in_int_range s → atoi s = atoi_value s.
Proof.
  unfold in_int_range, atoi, strtol, to_int, INT_MIN, INT_MAX, LONG_MIN,
    LONG_MAX.
  intros H. rewrite Z.min_l, Z.max_r by lia.
  rewrite Z.mod_small; lia.
Qed.

Lemma in_int_range_to_string (z : Z) :
  (INT_MIN ≤ z ≤ INT_MAX)%Z → in_int_range (pretty z).
Proof. unfold in_int_range. by rewrite atoi_value_to_string. Qed.

Lemma atoi_to_string (z : Z) :
  (INT_MIN ≤ z ≤ INT_MAX)%Z → atoi (pretty z) = z.
Proof.
  intros Hz. rewrite atoi_in_range by by apply in_int_range_to_string.
  apply atoi_value_to_string.
Qed.

Lemma StronglySorted_weaken_Forall {A} (P : A → Prop) (R R' : relation A) l :
  Forall P l → (∀ x y, P x → P y → R x y → R' x y) →
  StronglySorted R l → StronglySorted R' l.
Proof.
  intros HP HR Hl. induction Hl as [|x l _ IH Hall]; [constructor|].
  apply Forall_cons in HP as [Hx HP]. constructor; [by apply IH|].
  rewrite Forall_forall in Hall, HP. apply Forall_forall.
  intros y Hy. apply HR; auto.
Qed.

Section output_facts.
Context `{L : StdLib}.

Lemma sorted_groups_ascending res :
  StronglySorted (λ x y, (atoi x ≤ atoi y)%Z) (sorted_groups res).
Proof.
  eapply StronglySorted_weaken;
    [|apply (std_sort_sorted _ numeric_cmp), numeric_cmp_swo].
  intros x y Hxy. unfold numeric_cmp in Hxy. by apply Z.ltb_ge.
Qed.

Lemma sorted_groups_perm (res : gmap string (gmap string N)) :
  sorted_groups res ≡ₚ (map_to_list res).*1.
Proof.
  unfold sorted_groups. by rewrite std_sort_perm, unordered_iter_perm.
Qed.

Lemma output_graph_rows g ch :
  output_graph g = Some ch → (rows ch).*1 = sorted_groups (compute_values g).
Proof.
  unfold output_graph. intros Hch.
  destruct (snd <$> head (unordered_iter (compute_values g))); [|done].
  simpl in Hch. injection Hch as <-. simpl.
  rewrite <- list_fmap_compose. apply list_fmap_id.
Qed.

(** C9: in the data table written for each accumulated graph, the group
    labels of the rows come in ascending order of the [int] that [atoi]
    reads from them, whatever their width; where the labels of the graph
    denote numbers in the range of [int], that is the ascending order of
    the numbers denoted.  The labels are the graph's group labels, each
    once. *)
Theorem output_groups_ascending (s : Graphs) (charts : list chart) :
  output s = Some charts →
  Forall2 (λ p ch, ∃ g,
             heap s !! p = Some g
             ∧ StronglySorted (λ x y, (atoi x ≤ atoi y)%Z) (rows ch).*1
             ∧ (Forall in_int_range (group <$> results g) →
                StronglySorted (λ x y, (atoi_value x ≤ atoi_value y)%Z)
                               (rows ch).*1)
             ∧ NoDup (rows ch).*1
             ∧ ∀ x, x ∈ (rows ch).*1 ↔ x ∈ group <$> results g)
          (all_graphs s) charts.
Proof.
  intros Hout%mapM_Some_1. eapply Forall2_impl; [done|].
  intros p ch Hch. simpl in Hch.
  destruct (heap s !! p) as [g|]; [|done]. simpl in Hch.
  exists g. rewrite (output_graph_rows g ch Hch).
  assert (∀ x, x ∈ sorted_groups (compute_values g) ↔ x ∈ group <$> results g)
    as Hmem.
  { intros x. rewrite sorted_groups_perm, <- compute_values_groups.
    rewrite list_elem_of_fmap. split.
    - intros ([k v] & -> & Hkv%elem_of_map_to_list). by eexists.
    - intros [v Hv]. exists (x, v). split; [done|]. by apply elem_of_map_to_list. }
  split_and!; [done | | | | done].
  - apply sorted_groups_ascending.
  - intros Hrange.
    eapply (StronglySorted_weaken_Forall in_int_range);
      [| |apply sorted_groups_ascending].
    + apply Forall_forall. intros x Hx%Hmem.
      by apply (proj1 (Forall_forall _ _) Hrange).
    + intros x y Hx Hy Hxy. simpl in Hxy.
      by rewrite !atoi_in_range in Hxy.
  - rewrite sorted_groups_perm. apply NoDup_fst_map_to_list.
Qed.

End output_facts.

Lemma output_groups_ascending_witness :
  (fmap (M:=list) rows <$> output (L:=lcg_lib) width_graphs)
  = Some [[("9", [1; 2]%N); ("10", [3; 4]%N); ("100", [30; 40]%N)]]
  ∧ ∃ charts, output (L:=lcg_lib) width_graphs = Some charts
      ∧ Forall (λ ch,
          StronglySorted (λ x y, (atoi x ≤ atoi y)%Z) (rows ch).*1
          ∧ StronglySorted (λ x y, (atoi_value x ≤ atoi_value y)%Z)
                           (rows ch).*1)
               charts.
Proof.
  split; [by vm_compute|].
  destruct (output (L:=lcg_lib) width_graphs) as [charts|] eqn:Hout;
    [|by vm_compute in Hout].
  exists charts. split; [done|].
  assert (Forall (λ g, Forall in_int_range (group <$> results g))
                 (heap width_graphs)) as Hrange.
  { repeat constructor; vm_compute; discriminate. }
  eapply Forall2_Forall_r;
    [apply (output_groups_ascending (L:=lcg_lib) width_graphs charts Hout)|].
  apply Forall_true. intros p ch (g & Hg & Hs & Hv & _).
  split; [exact Hs|]. apply Hv.
  apply (proj1 (Forall_forall _ _) Hrange).
  by apply list_elem_of_lookup_2 in Hg.
Defined.

(** Labels wider than an [int]: [atoi] reads a negative number from
    2147483648, and the row of that label comes first. *)
Example numeric_cmp_wide_label :
  numeric_cmp "2147483647" "2147483648" = false
  ∧ numeric_cmp "2147483648" "2147483647" = true
  ∧ atoi "2147483648" = INT_MIN.
Proof. by vm_compute. Qed.

(** *** The driver *)

(** Had the accumulator started from zero, the value emitted would be the
    mean of the two elapsed times in the declared unit. *)
Lemma emitted_value_mean (u : DurationUnit) (e1 e2 : Z) :
  (0 ≤ e1)%Z → (0 ≤ e2)%Z → (e1 + e2 < 2 ^ 63)%Z →
  emitted_value u (0 + e1 + e2)
  = Z.to_N (duration_cast u ((e1 + e2) `quot` Z.of_N REPEAT)).
Proof.
  intros H1 H2 Hlt. unfold emitted_value, duration_cast, REPEAT.
  assert (0 < ticks_per u)%Z as Ht by (by destruct u).
  rewrite Z.add_0_l. change (Z.of_N 2) with 2%Z.
  rewrite (Z.quot_div_nonneg (e1 + e2) 2) by lia.
  rewrite (Z.quot_div_nonneg (e1 + e2)) by lia.
  rewrite (Z.quot_div_nonneg ((e1 + e2) `div` 2)) by (try apply Z.div_pos; lia).
  rewrite to_size_t_small.
  - change 2%N with (Z.to_N 2). rewrite <- Z2N.inj_div by (try apply Z.div_pos; lia).
    f_equal. rewrite !Z.div_div by lia. f_equal. lia.
  - split; [apply Z.div_pos; lia|].
    eapply Z.le_lt_trans; [apply Z.div_le_upper_bound with (q := (e1 + e2)%Z); nia|lia].
Qed.

Section driver_facts.
Context `{L : StdLib}.

Lemma trial_Some env ct create tests size d p d' p' :
  trial env ct create tests size (d, p) = Some (d', p') →
  d' = (d + elapsed env (clock_reads p))%Z
  ∧ clock_reads p' = S (S (clock_reads p))
  ∧ sink p' = sink p
  ∧ junk_reads p' = junk_reads p.
Proof.
  unfold trial. destruct (make create ct size (statics p)) as [o s1].
  destruct (run tests ct o size s1) as [[o' s2]|]; [|done]. simpl.
  intros [= <- <-]. done.
Qed.

(** Each size emits one sample, whose value is computed from the sum of the
    initial content of [duration] and the [REPEAT] = 2 elapsed times. *)
Lemma bench_size_emits env ct u create tests type p size p' :
  bench_size env ct u create tests type p size = Some p' →
  new_result type (pretty size)
    (emitted_value u (indeterminate env (junk_reads p)
                      + elapsed env (clock_reads p)
                      + elapsed env (S (S (clock_reads p)))))
    (sink p)
  = Some (sink p')
  ∧ clock_reads p' = 4 + clock_reads p.
Proof.
  unfold bench_size. change (N.to_nat REPEAT) with 2. cbn [for_loop_opt].
  destruct (trial env ct create tests (to_size_t size) (_, _))
    as [[d1 p1]|] eqn:H1; [|done]. cbn [mbind option_bind].
  destruct (trial env ct create tests (to_size_t size) (d1, p1))
    as [[d2 p2]|] eqn:H2; [|done]. cbn [mbind option_bind].
  apply trial_Some in H1 as (-> & Hc1 & Hs1 & _).
  apply trial_Some in H2 as (-> & Hc2 & Hs2 & _). cbn [clock_reads sink] in *.
  rewrite Hs2, Hs1, Hc1.
  destruct (new_result _ _ _ _) as [sink'|]; [|done]. cbn [mbind option_bind].
  intros [= <-]. cbn [clock_reads sink]. split; [done | lia].
Qed.

End driver_facts.


(** C1, on the code: [duration] is never set to zero before the trials are
    added to it.  With two trials of 4000 ns each the mean is 4 microseconds,
    and that is what a zeroed accumulator gives; the sample emitted is 504,
    computed from 1000000 + 4000 + 4000. *)
Theorem bench_duration_not_zeroed :
  let p := mkProcess (L:=lcg_lib) Statics_init
             (new_graph "fill_back_8" "fill_back - 8 byte" "us" Graphs_init)
             0 0 in
  (heap ∘ sink <$>
     bench env_junk (Vector, Small) microseconds CEmpty [TFillBack] "vector"
           [1000%Z] p)
  = Some [mkGraph "fill_back_8" "fill_back - 8 byte" "us"
            [mkResult "vector" "1000" 504]]
  ∧ elapsed env_junk 0 = 4000%Z
  ∧ elapsed env_junk 2 = 4000%Z
  ∧ duration_cast microseconds ((4000 + 4000) `quot` Z.of_N REPEAT) = 4%Z
  ∧ emitted_value microseconds (0 + 4000 + 4000) = 4%N
  ∧ emitted_value microseconds (1000000 + 4000 + 4000) = 504%N.
Proof. by vm_compute. Qed.

(** ** Further properties of the policies *)

(** *** The ordering of elements *)

(** X1: [operator<] of the element types reads the identity fields only
    and is a strict weak ordering: it holds exactly when the left identity
    is the smaller, it is irreflexive and transitive, and two elements
    neither of which is less than the other carry the same identity. *)
Theorem Elem_lt_strict_weak_order :
  (∀ x y, Elem_lt x y = true ↔ (a x < a y)%N)
  ∧ (∀ x, Elem_lt x x = false)
  ∧ (∀ x y z, Elem_lt x y = true → Elem_lt y z = true → Elem_lt x z = true)
  ∧ (∀ x y, Elem_lt x y = false → Elem_lt y x = false → a x = a y).
Proof.
  unfold Elem_lt. split_and!.
  - intros x y. apply N.ltb_lt.
  - intros x. apply N.ltb_irrefl.
  - intros x y z ?%N.ltb_lt ?%N.ltb_lt. apply N.ltb_lt. lia.
  - intros x y ?%N.ltb_ge ?%N.ltb_ge. lia.
Qed.

Lemma Elem_lt_strict_weak_order_witness :
  Elem_lt (mkElem 3) (mkElem 7) = true
  ∧ Elem_lt (mkElem 7) (mkElem 9) = true
  ∧ Elem_lt (mkElem 3) (mkElem 9) = true.
Proof.
  assert (Elem_lt (mkElem 3) (mkElem 7) = true) as H1 by reflexivity.
  assert (Elem_lt (mkElem 7) (mkElem 9) = true) as H2 by reflexivity.
  split_and!; [exact H1 | exact H2 |].
  exact (proj1 (proj2 (proj2 Elem_lt_strict_weak_order)) _ _ _ H1 H2).
Defined.

(** *** Fill and find *)

Lemma for_loop_push_back {A} n i (d : A) (c : list A) :
  for_loop n i (λ _ c, c ++ [d]) c = c ++ replicate n d.
Proof.
  revert i c. induction n as [|n IH]; intros i c; simpl.
  - by rewrite app_nil_r.
  - by rewrite IH, <- app_assoc.
Qed.

Lemma for_loop_push_front {A} n i (d : A) (c : list A) :
  for_loop n i (λ _ c, insert_at 0 d c) c = replicate n d ++ c.
Proof.
  revert i c. induction n as [|n IH]; intros i c; [done|].
  cbn [for_loop]. rewrite IH. unfold insert_at. rewrite take_0, drop_0.
  by rewrite replicate_S_end, <- app_assoc.
Qed.

(** X2: [FillBack] appends exactly [size] value-initialised elements and
    leaves the elements already there in place. *)
Theorem FillBack_appends (c : Container) (size : N) :
  FillBack_run c size = c ++ replicate (N.to_nat size) Elem_default
  ∧ length (FillBack_run c size) = length c + N.to_nat size.
Proof.
  unfold FillBack_run. rewrite for_loop_push_back. split; [done|].
  by rewrite length_app, length_replicate.
Qed.

(** X3: [FillFront], by [front_inserter] or by repeated insertion at
    [begin(c)], puts exactly [size] value-initialised elements before the
    elements already there; on an empty container it builds the same
    contents as [FillBack]. *)
Theorem FillFront_prepends (c : Container) (size : N) :
  FillFront_run c size = replicate (N.to_nat size) Elem_default ++ c
  ∧ FillFront_run [] size = FillBack_run [] size.
Proof.
  unfold FillFront_run, FillBack_run.
  rewrite !for_loop_push_front, for_loop_push_back.
  split; [done|]. by rewrite app_nil_r.
Qed.

(** *** Remove on distinct identities *)

Global Instance a_inj : Inj (=) (=) a.
Proof. intros [x] [y] H. simpl in H. by subst. Qed.

Lemma filter_all {A} (P : A → Prop) `{∀ x, Decision (P x)} (l : list A) :
  Forall P l → filter P l = l.
Proof.
  induction 1 as [|x l Hx _ IH]; [done|]. by rewrite filter_cons_True, IH.
Qed.

Lemma NoDup_identities_filter (P : Elem → Prop) `{∀ x, Decision (P x)}
    (c : Container) :
  NoDup (a <$> c) → NoDup (a <$> filter P c).
Proof.
  rewrite !(NoDup_fmap a). intros Hc.
  exact (sublist_NoDup _ _ Hc (sublist_filter P c)).
Qed.

(** With distinct identities the first match is the only one. *)
Lemma Remove_step_filter i (c : Container) :
  NoDup (a <$> c) → i ∈ a <$> c →
  Remove_step i c = Some (filter (λ x, a x ≠ i) c).
Proof.
  intros Hnd Hi.
  destruct (split_at_first i c Hi) as (pre & y & post & -> & Hpre & Hy).
  rewrite (Remove_step_present _ _ _ _ Hpre Hy). f_equal.
  rewrite fmap_app, fmap_cons in Hnd.
  apply NoDup_app in Hnd as (_ & _ & Hnd). apply NoDup_cons in Hnd as [Hy' _].
  rewrite filter_app, filter_cons_False by (intros ?; done).
  rewrite (filter_all _ pre) by done. f_equal. symmetry. apply filter_all.
  apply Forall_forall. intros z Hz Hzi. apply Hy'. rewrite Hy, <- Hzi.
  apply list_elem_of_fmap. by exists z.
Qed.

Lemma Remove_loop_filter m (lo : N) (c : Container) :
  NoDup (a <$> c) →
  (∀ i, (lo ≤ i < lo + N.of_nat m)%N → i ∈ a <$> c) →
  for_loop_opt m lo Remove_step c
  = Some (filter (λ x, ¬ (lo ≤ a x < lo + N.of_nat m)%N) c).
Proof.
  revert lo c. induction m as [|m IH]; intros lo c Hnd Hin.
  - simpl. f_equal. symmetry. apply filter_all, Forall_forall. intros; lia.
  - cbn [for_loop_opt]. rewrite Remove_step_filter by (try apply Hin; done || lia).
    cbn [mbind option_bind]. rewrite IH.
    + f_equal. rewrite list_filter_filter. apply list_filter_iff. intros x. lia.
    + by apply NoDup_identities_filter.
    + intros i Hi. destruct (proj1 (list_elem_of_fmap a c i)) as (x & -> & Hx).
      { apply Hin. lia. }
      apply list_elem_of_fmap. exists x. split; [done|].
      apply list_elem_of_filter. split; [lia | done].
Qed.

Lemma Remove_step_length i (c c' : Container) :
  Remove_step i c = Some c' → length c' + 1 = length c.
Proof.
  unfold Remove_step, erase. case_decide as Hlt; [|done]. intros [= <-].
  rewrite length_delete by (by apply lookup_lt_is_Some). lia.
Qed.

Lemma for_loop_opt_Remove_length m lo (c c' : Container) :
  for_loop_opt m lo Remove_step c = Some c' → length c' + m = length c.
Proof.
  revert lo c. induction m as [|m IH]; intros lo c; cbn [for_loop_opt].
  - intros [= <-]. lia.
  - destruct (Remove_step lo c) as [c1|] eqn:Hstep; [|done].
    cbn [mbind option_bind]. intros Hrun%IH.
    apply Remove_step_length in Hstep. lia.
Qed.

(** X5: on a container whose identities are distinct and include 0..999,
    [Remove::run] is defined and erases exactly the elements with identity
    below 1000: the others stay, in their order, and the container shrinks
    by 1000. *)
Theorem Remove_run_erases_first_thousand (c : Container) (size : N) :
  NoDup (a <$> c) → (∀ i, (i < 1000)%N → i ∈ a <$> c) →
  Remove_run c size = Some (filter (λ x, (1000 ≤ a x)%N) c)
  ∧ length (filter (λ x, (1000 ≤ a x)%N) c) + 1000 = length c.
Proof.
  intros Hnd Hin.
  assert (Remove_run c size = Some (filter (λ x, (1000 ≤ a x)%N) c)) as Hrun.
  { unfold Remove_run. rewrite Remove_loop_filter; [|done|intros; apply Hin; lia].
    f_equal. apply list_filter_iff. intros x. lia. }
  split; [done|]. by apply (for_loop_opt_Remove_length 1000 0 c).
Qed.

Lemma Remove_run_erases_first_thousand_witness :
  Remove_run (mkElem <$> (N.of_nat <$> seq 0 1002)) 1002
  = Some (filter (λ x, (1000 ≤ a x)%N) (mkElem <$> (N.of_nat <$> seq 0 1002))).
Proof.
  apply (Remove_run_erases_first_thousand
           (mkElem <$> (N.of_nat <$> seq 0 1002)) 1002).
  - rewrite fmap_a_mkElem. apply (NoDup_fmap_2 _), NoDup_seq.
  - intros i Hi. rewrite fmap_a_mkElem. apply list_elem_of_fmap.
    exists (N.to_nat i). split; [lia|]. apply elem_of_seq. lia.
Defined.

(** *** Insert, then remove *)

Lemma Insert_fold_identities size (l : list N) (c : Container) :
  a <$> foldl (λ c i, Insert_step size i c) c l
  ≡ₚ (a <$> c) ++ (size_add size <$> l).
Proof.
  revert c. induction l as [|i l IH]; intros c; simpl.
  - by rewrite app_nil_r.
  - rewrite IH. unfold Insert_step. rewrite insert_at_perm. simpl.
    by rewrite <- Permutation_middle.
Qed.

Lemma size_add_indices (n m : nat) :
  (N.of_nat n + N.of_nat m ≤ 2 ^ 64)%N →
  size_add (N.of_nat n) <$> indices 0 m = N.of_nat <$> seq n m.
Proof.
  intros Hfit. unfold indices.
  rewrite <- (Nat.add_0_r n) at 2. rewrite <- fmap_add_seq.
  rewrite <- !list_fmap_compose.
  apply list_fmap_ext. intros _ k Hk%list_elem_of_lookup_2%elem_of_seq. simpl.
  rewrite size_add_no_wrap; lia.
Qed.

Lemma Insert_run_identities (c : Container) (n : nat) :
  (N.of_nat n + 999 < 2 ^ 64)%N →
  a <$> Insert_run c (N.of_nat n) ≡ₚ (a <$> c) ++ (N.of_nat <$> seq n 1000).
Proof.
  intros Hn. unfold Insert_run. rewrite for_loop_foldl, Insert_fold_identities.
  rewrite size_add_indices; [done | lia].
Qed.

Section insert_remove.
Context `{L : StdLib}.

Lemma run_Insert_Remove ct (c : Container) size s :
  run [TInsert; TRemove] ct (Plain c) size s
  = c' ← Remove_run (Insert_run c size) size; Some (Plain c', s).
Proof.
  unfold run, run_policy. generalize (Insert_run c size) as c1. intros c1.
  cbn [mbind option_bind]. by destruct (Remove_run c1 size).
Qed.

(** X6: composed in one run on a container holding a permutation of
    0..n-1, n >= 1000, [Insert] followed by [Remove] is defined and brings
    the container back to its size: the 1000 elements inserted carry the
    identities n..n+999, and the 1000 erased are those of identity 0..999. *)
Theorem Insert_then_Remove_restores_size (ct : ContainerType) (c : Container)
    (n : nat) (s : Statics) :
  a <$> c ≡ₚ N.of_nat <$> seq 0 n → 1000 ≤ n → (N.of_nat n + 999 < 2 ^ 64)%N →
  ∃ c', run [TInsert; TRemove] ct (Plain c) (N.of_nat n) s = Some (Plain c', s)
        ∧ length c' = length c
        ∧ a <$> c' ≡ₚ N.of_nat <$> seq 1000 n.
Proof.
  intros Hc Hn Hfit.
  assert (a <$> Insert_run c (N.of_nat n) ≡ₚ N.of_nat <$> seq 0 (n + 1000))
    as Hins.
  { rewrite (Insert_run_identities c n Hfit), Hc, <- fmap_app.
    rewrite (seq_app n 1000 0). by change (0 + n) with n. }
  destruct (Remove_loop_on_range 1000 0 (n + 1000) _ Hins ltac:(lia))
    as (c' & Hrun & Hc').
  change (N.of_nat 0) with 0%N in Hrun. change (0 + 1000) with 1000 in Hc'.
  replace (n + 1000 - 1000) with n in Hc' by lia.
  exists c'. split_and!; [| |done].
  - rewrite run_Insert_Remove.
    replace (Remove_run (Insert_run c (N.of_nat n)) (N.of_nat n))
      with (Some c'); done.
  - apply Permutation_length in Hc, Hc'.
    rewrite !length_fmap, !length_seq in Hc, Hc'. lia.
Qed.

(** *** The runner *)

(** X7: the variadic runner sequences its policies: running the list
    [ts1 ++ ts2] is running [ts1] and then, if that is defined, [ts2] on the
    object and statics it leaves. *)
Theorem run_app (ts1 ts2 : list TestPolicy) (ct : ContainerType) (o : Object)
    (size : N) (s : Statics) :
  run (ts1 ++ ts2) ct o size s
  = run ts1 ct o size s ≫= λ os, run ts2 ct os.1 size os.2.
Proof.
  revert o s. induction ts1 as [|t ts1 IH]; intros o s; simpl; [done|].
  destruct (run_policy t ct o size s) as [[o' s']|]; simpl; [apply IH | done].
Qed.

Lemma run_policy_frame t ct o size s o' s' :
  run_policy t ct o size s = Some (o', s') →
  FilledRandom_v s' = FilledRandom_v s
  ∧ ∀ ct', ct' ≠ ct →
      RandomSortedInsert_generator s' ct' = RandomSortedInsert_generator s ct'.
Proof.
  intros Hrun. destruct t, o; simpl in Hrun; simplify_option_eq; try done.
  destruct (RandomSortedInsert_run _ _ _) as [c' g']. simplify_eq. simpl.
  split; [done|]. intros ct' Hct. by apply fn_lookup_insert_ne.
Qed.

(** X8: no test policy touches the cached permutations, and the only random
    engine a run can advance is the one of its own container type. *)
Theorem run_frame (tests : list TestPolicy) (ct : ContainerType) (o : Object)
    (size : N) (s : Statics) (o' : Object) (s' : Statics) :
  run tests ct o size s = Some (o', s') →
  FilledRandom_v s' = FilledRandom_v s
  ∧ ∀ ct', ct' ≠ ct →
      RandomSortedInsert_generator s' ct' = RandomSortedInsert_generator s ct'.
Proof.
  revert o s. induction tests as [|t tests IH]; intros o s; simpl.
  - by intros [= <- <-].
  - destruct (run_policy t ct o size s) as [[o1 s1]|] eqn:Hstep; [|done].
    simpl. intros (Hv & Hg)%IH.
    apply run_policy_frame in Hstep as (Hv1 & Hg1).
    split; [congruence|]. intros ct' Hct. rewrite Hg, Hg1; done.
Qed.

(** X9: from any state of the statics, [FilledRandom::make] builds a
    container of exactly [size] elements, and a second call for the same
    container type and size changes nothing and builds the container of the
    first: the repetitions of a benchmark run on identical contents. *)
Theorem FilledRandom_repetition (ct : ContainerType) (size : N) (s : Statics) :
  length (FilledRandom_make ct size s).1 = N.to_nat size
  ∧ FilledRandom_make ct size (FilledRandom_make ct size s).2
    = FilledRandom_make ct size s.
Proof.
  unfold FilledRandom_make. simpl.
  assert (N.of_nat (length (FilledRandom_prepare ct size (FilledRandom_v s) ct))
          = size) as Hlen.
  { destruct (decide (N.of_nat (length (FilledRandom_v s ct)) = size)).
    - by rewrite FilledRandom_prepare_reuses.
    - rewrite FilledRandom_prepare_regenerates, fn_lookup_insert by done.
      rewrite length_permutation_of_size. lia. }
  split.
  - rewrite FilledRandom_fill_fmap, length_fmap. lia.
  - by rewrite (FilledRandom_prepare_reuses ct size _ Hlen).
Qed.

Lemma insert_at_sublist {A} it (x : A) (c : list A) :
  c `sublist_of` insert_at it x c.
Proof.
  unfold insert_at. rewrite <- (take_drop it c) at 1.
  apply sublist_app; [done|]. by apply sublist_cons.
Qed.

Lemma RandomSortedInsert_loop_keeps n i (cg : Container * mt19937) :
  cg.1 `sublist_of` (for_loop n i (λ _, RandomSortedInsert_step) cg).1
  ∧ length (for_loop n i (λ _, RandomSortedInsert_step) cg).1
    = length cg.1 + n.
Proof.
  revert i cg. induction n as [|n IH]; intros i cg; cbn [for_loop].
  - split; [done | lia].
  - destruct (IH (i + 1)%N (RandomSortedInsert_step cg)) as [Hsub Hlen].
    assert (cg.1 `sublist_of` (RandomSortedInsert_step cg).1
            ∧ length (RandomSortedInsert_step cg).1 = S (length cg.1))
      as [Hstep Hlen1].
    { unfold RandomSortedInsert_step.
      destruct (uniform_int_distribution 0 (SIZE_MAX - 1) cg.2) as [val g'].
      cbn [fst]. split; [apply insert_at_sublist | apply length_insert_at]. }
    split; [by etrans | lia].
Qed.

(** X26: on any container [RandomSortedInsert::run] adds exactly [size]
    elements and keeps the elements it found, in their order; if the
    container was ascending by identity it still is. *)
Theorem RandomSortedInsert_keeps_elements (c : Container) (size : N)
    (g : mt19937) :
  c `sublist_of` (RandomSortedInsert_run c size g).1
  ∧ length (RandomSortedInsert_run c size g).1 = length c + N.to_nat size
  ∧ (ascending c → ascending (RandomSortedInsert_run c size g).1).
Proof.
  unfold RandomSortedInsert_run.
  destruct (RandomSortedInsert_loop_keeps (N.to_nat size) 0 (c, g))
    as [Hsub Hlen].
  split_and!; [done | done |].
  intros Hc. by apply (RandomSortedInsert_loop_inv (N.to_nat size) 0 (c, g)).
Qed.

End insert_remove.

Lemma Insert_then_Remove_restores_size_witness :
  ∃ c', run (L:=lcg_lib) [TInsert; TRemove] (Vector, Small)
            (Plain (mkElem <$> (N.of_nat <$> seq 0 1001))) 1001 Statics_init
        = Some (Plain c', Statics_init)
        ∧ length c' = length (mkElem <$> (N.of_nat <$> seq 0 1001)).
Proof.
  destruct (Insert_then_Remove_restores_size (L:=lcg_lib) (Vector, Small)
              (mkElem <$> (N.of_nat <$> seq 0 1001)) 1001 Statics_init)
    as (c' & Hrun & Hlen & _).
  - by rewrite fmap_a_mkElem.
  - lia.
  - by vm_compute.
  - exists c'. split; [exact Hrun | exact Hlen].
Defined.

Lemma run_frame_witness :
  ∃ o' s',
    run (L:=lcg_lib) [TSort; TRandomSortedInsert] (List, Small)
        (Plain [mkElem 2; mkElem 1]) 2
        (FilledRandom_make (L:=lcg_lib) (List, Small) 3 Statics_init).2
    = Some (o', s')
    ∧ FilledRandom_v s'
      = FilledRandom_v
          (FilledRandom_make (L:=lcg_lib) (List, Small) 3 Statics_init).2.
Proof.
  destruct (run (L:=lcg_lib) [TSort; TRandomSortedInsert] (List, Small)
              (Plain [mkElem 2; mkElem 1]) 2
              (FilledRandom_make (L:=lcg_lib) (List, Small) 3 Statics_init).2)
    as [[o' s']|] eqn:Hrun; [|by vm_compute in Hrun].
  exists o', s'. split; [reflexivity|].
  exact (proj1 (run_frame (L:=lcg_lib) _ _ _ _ _ _ _ Hrun)).
Defined.

(** ** Further properties of the result sink *)


(** From a state whose current graph is the last object allocated, every
    sequence of calls is defined, and the heap afterwards is read off the
    calls. *)
Lemma exec_from_current ops front g (s0 : Graphs) :
  heap s0 = front ++ [g] → current_graph s0 = Some (length front) →
  all_graphs s0 = seq 0 (length (heap s0)) →
  ∃ s, exec ops s0 = Some s
       ∧ heap s = front ++ [add_results g (samples_until_next ops)]
                  ++ graphs_of ops
       ∧ all_graphs s = seq 0 (length (heap s))
       ∧ cout s = cout s0 ++ (trace_line <$> ops).
Proof.
  revert front g s0.
  induction ops as [|[n t u|se gr v] ops IH]; intros front g s0 Hh Hc Ha.
  - exists s0. split_and!; [done | | done | by rewrite app_nil_r].
    rewrite Hh. unfold add_results. simpl. rewrite !app_nil_r. by destruct g.
  - destruct (IH (front ++ [g]) (mkGraph n t u []) (new_graph n t u s0))
      as (s & Hs & Hhs & Has & Hcs).
    { simpl. by rewrite Hh. }
    { simpl. rewrite Hh, length_app. simpl. f_equal. }
    { simpl. rewrite length_app, Ha. simpl. by rewrite Nat.add_1_r, seq_S. }
    exists s. split_and!; [done | | done |].
    + rewrite Hhs. unfold add_results. simpl. rewrite app_nil_r.
      rewrite <- !app_assoc. simpl. by destruct g.
    + rewrite Hcs. simpl. by rewrite <- app_assoc.
  - assert (new_result se gr v s0
            = Some (mkGraphs (front ++ [add_results g [mkResult se gr v]])
                             (current_graph s0) (all_graphs s0)
                             (cout s0 ++ [trace_line (NewResult se gr v)])))
      as Hres.
    { unfold new_result. rewrite Hc. simpl. rewrite Hh.
      rewrite lookup_app_r, Nat.sub_diag by done. simpl. do 2 f_equal.
      rewrite <- (Nat.add_0_r (length front)), insert_app_r. done. }
    destruct (IH front (add_results g [mkResult se gr v])
                (mkGraphs (front ++ [add_results g [mkResult se gr v]])
                          (current_graph s0) (all_graphs s0)
                          (cout s0 ++ [trace_line (NewResult se gr v)])))
      as (s & Hs & Hhs & Has & Hcs); simpl.
    { done. }
    { done. }
    { rewrite Ha, Hh, !length_app. done. }
    exists s. split_and!; [by rewrite Hres | | done |].
    + rewrite Hhs. unfold add_results. simpl. by rewrite <- app_assoc.
    + rewrite Hcs. simpl. by rewrite <- app_assoc.
Qed.

Lemma exec_starts_with_new_graph ops s :
  exec ops Graphs_init = Some s →
  ops = [] ∧ s = Graphs_init
  ∨ ∃ n t u ops', ops = NewGraph n t u :: ops'
      ∧ exec ops' (new_graph n t u Graphs_init) = Some s.
Proof.
  destruct ops as [|[n t u|se gr v] ops]; simpl.
  - intros [= <-]. by left.
  - intros Hs. right. by exists n, t, u, ops.
  - done.
Qed.

(** X10: the sink keeps every sample, in the order of emission, in the graph
    that was current when it was emitted: after any defined sequence of
    calls the graph objects are, in order of creation, the graphs the
    sequence describes, and [all_graphs] lists them in that order. *)
Theorem sink_accumulates (ops : list op) (s : Graphs) :
  exec ops Graphs_init = Some s →
  heap s = graphs_of ops ∧ all_graphs s = seq 0 (length (heap s)).
Proof.
  intros [[-> ->]|(n & t & u & ops' & -> & Hs)]%exec_starts_with_new_graph;
    [done|].
  destruct (exec_from_current ops' [] (mkGraph n t u [])
              (new_graph n t u Graphs_init)) as (s' & Hs' & Hh & Ha & _);
    [done..|].
  rewrite Hs in Hs'. injection Hs' as <-. split; [|done].
  rewrite Hh. done.
Qed.

(** X11: every call writes exactly one line to the console, in order:
    [Start name] for a graph, [serie:group:value] for a sample. *)
Theorem sink_trace (ops : list op) (s : Graphs) :
  exec ops Graphs_init = Some s → cout s = trace_line <$> ops.
Proof.
  intros [[-> ->]|(n & t & u & ops' & -> & Hs)]%exec_starts_with_new_graph;
    [done|].
  destruct (exec_from_current ops' [] (mkGraph n t u [])
              (new_graph n t u Graphs_init)) as (s' & Hs' & _ & _ & Hc);
    [done..|].
  rewrite Hs in Hs'. injection Hs' as <-. by rewrite Hc.
Qed.

(** X12: a sequence of calls into the sink is defined exactly when it is
    empty or begins with [new_graph]: once a graph was started no later call
    can fail. *)
Theorem exec_defined_iff (ops : list op) :
  is_Some (exec ops Graphs_init)
  ↔ ops = [] ∨ ∃ n t u ops', ops = NewGraph n t u :: ops'.
Proof.
  split.
  - intros [s [[-> _]|(n & t & u & ops' & -> & _)]%exec_starts_with_new_graph].
    + by left.
    + right. by exists n, t, u, ops'.
  - intros [->|(n & t & u & ops' & ->)]; [by eexists|].
    destruct (exec_from_current ops' [] (mkGraph n t u [])
                (new_graph n t u Graphs_init)) as (s' & Hs' & _); [done..|].
    by exists s'.
Qed.

Lemma sink_accumulates_witness :
  heap (mkGraphs
          [mkGraph "sort_8" "sort - 8 byte" "ms"
                   [mkResult "vector" "100000" 7];
           mkGraph "find_8" "find - 8 byte" "us" []]
          (Some 1) [0; 1]
          ["Start sort_8"; "vector:100000:7"; "Start find_8"])
  = graphs_of [NewGraph "sort_8" "sort - 8 byte" "ms";
               NewResult "vector" "100000" 7;
               NewGraph "find_8" "find - 8 byte" "us"].
Proof.
  refine (proj1 (sink_accumulates
                   [NewGraph "sort_8" "sort - 8 byte" "ms";
                    NewResult "vector" "100000" 7;
                    NewGraph "find_8" "find - 8 byte" "us"] _ _)).
  by vm_compute.
Defined.

Lemma sink_trace_witness :
  cout (mkGraphs
          [mkGraph "sort_8" "sort - 8 byte" "ms"
                   [mkResult "vector" "100000" 7]]
          (Some 0) [0] ["Start sort_8"; "vector:100000:7"])
  = trace_line <$> [NewGraph "sort_8" "sort - 8 byte" "ms";
                    NewResult "vector" "100000" 7].
Proof.
  refine (sink_trace [NewGraph "sort_8" "sort - 8 byte" "ms";
                      NewResult "vector" "100000" 7] _ _).
  by vm_compute.
Defined.

(** *** The table of values *)


Lemma lookup2_insert (m : gmap string (gmap string N)) k se k' se' v :
  lookup2 (<[k' := <[se' := v]> (m !!! k')]> m) k se
  = if decide (k' = k ∧ se' = se) then Some v else lookup2 m k se.
Proof.
  unfold lookup2. destruct (decide (k' = k)) as [->|Hk].
  - rewrite lookup_insert_eq. simpl. destruct (decide (se' = se)) as [->|Hse].
    + rewrite lookup_insert_eq. by rewrite decide_True.
    + rewrite lookup_insert_ne by done. rewrite decide_False by (by intros [_ ?]).
      rewrite lookup_total_alt. by destruct (m !! k).
  - rewrite lookup_insert_ne by done. by rewrite decide_False by (by intros [? _]).
Qed.

Lemma compute_values_fold (l : list result) (m : gmap string (gmap string N))
    k se :
  lookup2 (foldl (λ (res : gmap string (gmap string N)) r,
                    <[group r := <[serie r := value r]> (res !!! group r)]> res)
                 m l) k se
  = match last (filter (λ r, group r = k ∧ serie r = se) l) with
    | Some r => Some (value r)
    | None => lookup2 m k se
    end.
Proof.
  revert m. induction l as [|r l IH]; intros m; [done|].
  cbn [foldl]. rewrite IH, lookup2_insert.
  destruct (decide (group r = k ∧ serie r = se)) as [Hr|Hr].
  - rewrite filter_cons_True, last_cons by done.
    by destruct (last (filter _ l)).
  - by rewrite filter_cons_False by done.
Qed.

(** X13: [compute_values] keeps, for each group and series, the value of the
    latest sample emitted for them, and nothing for a pair without sample:
    an earlier sample of the same group and series is overwritten. *)
Theorem compute_values_latest (g : graph) (k se : string) :
  lookup2 (compute_values g) k se
  = value <$> last (filter (λ r, group r = k ∧ serie r = se) (results g)).
Proof.
  unfold compute_values. rewrite compute_values_fold.
  by destruct (last (filter _ (results g))).
Qed.

(** X14: [numeric_cmp] is a strict weak ordering, as [std::sort] requires,
    and on the labels [std::to_string] makes from two sizes in the range of
    [int] it decides whether the first size is the smaller. *)
Theorem numeric_cmp_orders_sizes :
  StrictWeakOrder numeric_cmp
  ∧ ∀ x y : Z, (INT_MIN ≤ x ≤ INT_MAX)%Z → (INT_MIN ≤ y ≤ INT_MAX)%Z →
      numeric_cmp (pretty x) (pretty y) = bool_decide (x < y)%Z.
Proof.
  split; [apply numeric_cmp_swo|].
  intros x y Hx Hy. unfold numeric_cmp. rewrite !atoi_to_string by done.
  destruct (Z.ltb_spec x y).
  - by rewrite bool_decide_true.
  - rewrite bool_decide_false; [done | lia].
Qed.

Lemma numeric_cmp_orders_sizes_witness :
  (INT_MIN ≤ 100000 ≤ INT_MAX)%Z ∧ (INT_MIN ≤ 1000000 ≤ INT_MAX)%Z
  ∧ numeric_cmp "100000" "1000000" = true
  ∧ numeric_cmp "1000000" "100000" = false.
Proof.
  assert (H1 : (INT_MIN ≤ 100000 ≤ INT_MAX)%Z) by (vm_compute; split; discriminate).
  assert (H2 : (INT_MIN ≤ 1000000 ≤ INT_MAX)%Z) by (vm_compute; split; discriminate).
  split; [exact H1|]. split; [exact H2|]. split.
  - exact (proj2 numeric_cmp_orders_sizes 100000%Z 1000000%Z H1 H2).
  - exact (proj2 numeric_cmp_orders_sizes 1000000%Z 100000%Z H2 H1).
Defined.

Section output_more.
Context `{L : StdLib}.

Lemma compute_values_empty_iff (g : graph) :
  compute_values g = ∅ ↔ results g = [].
Proof.
  split.
  - intros Hempty. destruct (results g) as [|r l] eqn:Hres; [done|].
    destruct (proj2 (compute_values_groups g (group r))) as [m Hm].
    { rewrite Hres. left. }
    by rewrite Hempty, lookup_empty in Hm.
  - intros Hres. unfold compute_values. by rewrite Hres.
Qed.

Lemma unordered_iter_nil {V} (m : gmap string V) :
  unordered_iter m = [] ↔ m = ∅.
Proof.
  rewrite <- map_to_list_empty_iff. split.
  - intros H. apply Permutation_nil_r. by rewrite <- unordered_iter_perm, H.
  - intros H. apply Permutation_nil_r. by rewrite unordered_iter_perm, H.
Qed.

Lemma output_graph_None (g : graph) : output_graph g = None → results g = [].
Proof.
  rewrite <- compute_values_empty_iff, <- unordered_iter_nil, <- head_None.
  unfold output_graph.
  by destruct (head (unordered_iter (compute_values g))) as [[k m]|].
Qed.

Lemma output_graph_empty (g : graph) : results g = [] → output_graph g = None.
Proof.
  rewrite <- compute_values_empty_iff, <- unordered_iter_nil, <- head_None.
  unfold output_graph. by intros ->.
Qed.

Lemma output_graph_name (g : graph) ch :
  output_graph g = Some ch → chart_name ch = name g.
Proof.
  unfold output_graph.
  destruct (head (unordered_iter (compute_values g))) as [[k m]|]; [|done].
  by intros [= <-].
Qed.

(** X15: the chart of a graph is undefined exactly when the graph has no
    sample: [results.begin()] is dereferenced without a test. *)
Theorem output_graph_undefined_iff (g : graph) :
  output_graph g = None ↔ results g = [].
Proof. split; [apply output_graph_None | apply output_graph_empty]. Qed.

Lemma elem_of_unordered_iter {V} (m : gmap string V) k v :
  (k, v) ∈ unordered_iter m ↔ m !! k = Some v.
Proof. by rewrite unordered_iter_perm, elem_of_map_to_list. Qed.

Lemma lookup2_Some (g : graph) k se v :
  lookup2 (compute_values g) k se = Some v
  ↔ ∃ m, compute_values g !! k = Some m ∧ m !! se = Some v.
Proof.
  unfold lookup2. destruct (compute_values g !! k) as [m|]; simpl.
  - split; [by exists m | by intros (? & [= <-] & ?)].
  - split; [done | by intros (? & ? & ?)].
Qed.

(** X16: in the chart of a graph, the row of a group holds exactly one
    value for each series that has a sample in the group, namely the value
    of its latest sample: the row is the list of these values along an
    enumeration without repetition of the series of the group.  The header
    names, each once, the series of one of the groups only. *)
Theorem output_graph_contents (g : graph) (ch : chart) :
  output_graph g = Some ch →
  chart_name ch = name g
  ∧ Forall (λ row, ∃ ses,
              NoDup ses
              ∧ (∀ se, se ∈ ses ↔ is_Some (lookup2 (compute_values g) row.1 se))
              ∧ Some <$> row.2 = lookup2 (compute_values g) row.1 <$> ses)
           (rows ch)
  ∧ ∃ k, k ∈ group <$> results g
      ∧ NoDup (header ch)
      ∧ ∀ se, se ∈ header ch ↔ is_Some (lookup2 (compute_values g) k se).
Proof.
  unfold output_graph. intros Hch.
  destruct (head (unordered_iter (compute_values g))) as [[k0 m0]|] eqn:Hhead;
    [|done].
  simpl in Hch. injection Hch as <-. simpl. split_and!; [done | |].
  - apply Forall_fmap, Forall_forall. intros k Hk. simpl.
    assert (is_Some (compute_values g !! k)) as [m Hm].
    { apply compute_values_groups.
      assert (k ∈ (map_to_list (compute_values g)).*1) as Hin
        by (by rewrite <- sorted_groups_perm).
      apply list_elem_of_fmap in Hin as ([k' m'] & -> & Hin%elem_of_map_to_list).
      apply compute_values_groups. by exists m'. }
    rewrite lookup_total_alt, Hm. simpl.
    exists (unordered_iter m).*1. split_and!.
    + rewrite unordered_iter_perm. apply NoDup_fst_map_to_list.
    + intros se. rewrite list_elem_of_fmap. split.
      * intros ([se' v] & -> & Hin%elem_of_unordered_iter). exists v.
        apply lookup2_Some. by exists m.
      * intros (v & (m' & Hm' & Hv)%lookup2_Some). exists (se, v).
        split; [done|]. apply elem_of_unordered_iter. congruence.
    + rewrite <- !list_fmap_compose. apply Forall_fmap_ext_1, Forall_forall.
      intros [se v] Hin%elem_of_unordered_iter. simpl. symmetry.
      apply lookup2_Some. by exists m.
  - apply head_Some_elem_of in Hhead. apply elem_of_unordered_iter in Hhead.
    exists k0. split_and!.
    + apply compute_values_groups. by exists m0.
    + rewrite unordered_iter_perm. apply NoDup_fst_map_to_list.
    + intros se. rewrite list_elem_of_fmap. split.
      * intros ([se' v] & -> & Hin%elem_of_unordered_iter). exists v.
        apply lookup2_Some. by exists m0.
      * intros (v & (m' & Hm' & Hv)%lookup2_Some). exists (se, v).
        split; [done|]. apply elem_of_unordered_iter. congruence.
Qed.

Lemma output_Some_iff (s : Graphs) charts :
  all_graphs s = seq 0 (length (heap s)) →
  output s = Some charts
  ↔ Forall2 (λ g ch, output_graph g = Some ch) (heap s) charts.
Proof.
  intros Hall. unfold output. rewrite Hall.
  generalize (heap s) as h. intros h. rewrite mapM_Some. split.
  - intros H. apply Forall2_same_length_lookup. split.
    + apply Forall2_length in H. by rewrite length_seq in H.
    + intros i g ch Hg Hc.
      assert (seq 0 (length h) !! i = Some i) as Hi.
      { apply lookup_seq. split; [done|]. by apply lookup_lt_Some in Hg. }
      pose proof (Forall2_lookup_lr _ _ _ _ _ _ H Hi Hc) as Hout.
      simpl in Hout. by rewrite Hg in Hout.
  - intros H. apply Forall2_same_length_lookup. split.
    + apply Forall2_length in H. by rewrite length_seq.
    + intros i p ch [-> Hp]%lookup_seq Hc. simpl.
      destruct (Forall2_lookup_r _ _ _ _ _ H Hc) as (g & Hg & Hout).
      by rewrite Hg.
Qed.

Lemma output_graphs_defined (h : list graph) :
  Forall (λ g, results g ≠ []) h →
  ∃ charts, Forall2 (λ g ch, output_graph g = Some ch) h charts.
Proof.
  induction 1 as [|g h' Hg _ [charts IH]]; [by exists []|].
  destruct (output_graph g) as [ch|] eqn:Hch.
  - exists (ch :: charts). by constructor.
  - destruct Hg. by apply output_graph_None.
Qed.

Lemma output_graphs_have_results (h : list graph) charts :
  Forall2 (λ g ch, output_graph g = Some ch) h charts →
  Forall (λ g, results g ≠ []) h.
Proof.
  induction 1 as [|g ch h' charts' Hch _ IH]; constructor; [|done].
  intros Hres%output_graph_empty. congruence.
Qed.

Lemma output_chart_names (h : list graph) charts :
  Forall2 (λ g ch, output_graph g = Some ch) h charts →
  chart_name <$> charts = name <$> h.
Proof.
  induction 1 as [|g ch h' charts' Hch _ IH]; [done|].
  simpl. f_equal; [|done]. by apply output_graph_name.
Qed.

(** X17: [graphs::output] makes one chart for each graph started, in order
    of creation and under the graph's name, and is defined exactly when
    every graph has at least one sample. *)
Theorem output_one_chart_per_graph (s : Graphs) :
  all_graphs s = seq 0 (length (heap s)) →
  (is_Some (output s) ↔ Forall (λ g, results g ≠ []) (heap s))
  ∧ ∀ charts, output s = Some charts → chart_name <$> charts = name <$> heap s.
Proof.
  intros Hall. split.
  - split.
    + intros [charts Hc]. apply (output_Some_iff s charts Hall) in Hc.
      by eapply output_graphs_have_results.
    + intros [charts Hc]%output_graphs_defined. exists charts.
      by apply output_Some_iff.
  - intros charts Hc%output_Some_iff; [|done]. by apply output_chart_names.
Qed.

End output_more.

(** ** Further properties of the driver *)

(** X18: for an accumulated duration that is not negative, dividing the
    converted count by [REPEAT] gives the same sample as converting the
    halved duration: the whole number of units in the mean, rounded down. *)
Theorem emitted_value_floor_of_mean (u : DurationUnit) (d : Z) :
  (0 ≤ d < 2 ^ 63)%Z →
  emitted_value u d = Z.to_N (d `div` (Z.of_N REPEAT * ticks_per u))
  ∧ emitted_value u d = Z.to_N (duration_cast u (d `quot` Z.of_N REPEAT)).
Proof.
  intros Hd. unfold emitted_value, duration_cast, REPEAT.
  assert (0 < ticks_per u)%Z as Ht by (by destruct u).
  change (Z.of_N 2) with 2%Z.
  rewrite (Z.quot_div_nonneg d 2) by lia.
  rewrite (Z.quot_div_nonneg d) by lia.
  rewrite (Z.quot_div_nonneg (d `div` 2)) by (try apply Z.div_pos; lia).
  rewrite to_size_t_small.
  - change 2%N with (Z.to_N 2).
    rewrite <- Z2N.inj_div by (try apply Z.div_pos; lia).
    rewrite !Z.div_div by lia. split; f_equal; f_equal; lia.
  - split; [apply Z.div_pos; lia|].
    eapply Z.le_lt_trans; [apply Z.div_le_upper_bound with (q := d); nia|lia].
Qed.

Lemma emitted_value_floor_of_mean_witness :
  (0 ≤ 9999 < 2 ^ 63)%Z ∧ emitted_value microseconds 9999 = 4%N.
Proof.
  assert (0 ≤ 9999 < 2 ^ 63)%Z as H by (by vm_compute).
  split; [exact H|].
  exact (proj1 (emitted_value_floor_of_mean microseconds 9999 H)).
Defined.

(** X19: a negative accumulated duration of at least one unit (the clock
    went backwards) is not reported as negative: the count is converted to
    [std::size_t] for the division by [REPEAT], and the sample is at least
    2^62. *)
Theorem emitted_value_negative (u : DurationUnit) (d : Z) :
  (- 2 ^ 63 ≤ d ≤ - ticks_per u)%Z →
  emitted_value u d
  = ((2 ^ 64 - Z.to_N ((- d) `div` ticks_per u)) `div` 2)%N
  ∧ (2 ^ 62 ≤ emitted_value u d)%N.
Proof.
  intros Hd. unfold emitted_value, duration_cast, REPEAT.
  assert (0 < ticks_per u)%Z as Ht by (by destruct u).
  assert (1000 ≤ ticks_per u)%Z as Ht' by (destruct u; simpl; lia).
  rewrite <- (Z.opp_involutive d) at 1 3. rewrite Z.quot_opp_l by lia.
  rewrite Z.quot_div_nonneg by lia.
  assert (1 ≤ (- d) `div` ticks_per u)%Z as Hq1.
  { apply Z.div_le_lower_bound; lia. }
  assert ((- d) `div` ticks_per u < 2 ^ 60)%Z as Hq2.
  { apply Z.div_lt_upper_bound; lia. }
  assert (to_size_t (- ((- d) `div` ticks_per u))
          = (2 ^ 64 - Z.to_N ((- d) `div` ticks_per u))%N) as ->.
  { unfold to_size_t, SIZE_WIDTH. change (Z.of_N 64) with 64%Z.
    rewrite <- (Z.mod_add _ 1) by lia. rewrite Z.mod_small by lia. lia. }
  split; [done|]. apply N.div_le_lower_bound; lia.
Qed.

Lemma emitted_value_negative_witness :
  (- 2 ^ 63 ≤ - 5000 ≤ - ticks_per microseconds)%Z
  ∧ emitted_value microseconds (- 5000) = 9223372036854775805%N.
Proof.
  assert (- 2 ^ 63 ≤ - 5000 ≤ - ticks_per microseconds)%Z as H
    by (by vm_compute).
  split; [exact H|].
  exact (proj1 (emitted_value_negative microseconds (- 5000) H)).
Defined.

Section bench_facts.
Context `{L : StdLib}.

Lemma foldl_bind_None {A B} (f : A → B → option A) (l : list B) :
  foldl (λ oa x, oa ≫= λ y, f y x) None l = None.
Proof. induction l as [|x l IH]; [done|]. simpl. apply IH. Qed.

Lemma bench_cons env ct u create tests type size sizes p :
  bench env ct u create tests type (size :: sizes) p
  = bench_size env ct u create tests type p size
    ≫= bench env ct u create tests type sizes.
Proof.
  unfold bench. cbn [foldl mbind option_bind].
  destruct (bench_size env ct u create tests type p size); [done|].
  apply foldl_bind_None.
Qed.

Lemma bench_size_Some env ct u create tests type p size p' :
  bench_size env ct u create tests type p size = Some p' →
  new_result type (pretty size)
    (emitted_value u (indeterminate env (junk_reads p)
                      + elapsed env (clock_reads p)
                      + elapsed env (S (S (clock_reads p)))))
    (sink p)
  = Some (sink p')
  ∧ clock_reads p' = 4 + clock_reads p
  ∧ junk_reads p' = S (junk_reads p).
Proof.
  unfold bench_size. change (N.to_nat REPEAT) with 2. cbn [for_loop_opt].
  destruct (trial env ct create tests (to_size_t size) (_, _))
    as [[d1 p1]|] eqn:H1; [|done]. cbn [mbind option_bind].
  destruct (trial env ct create tests (to_size_t size) (d1, p1))
    as [[d2 p2]|] eqn:H2; [|done]. cbn [mbind option_bind].
  apply trial_Some in H1 as (-> & Hc1 & Hs1 & Hj1).
  apply trial_Some in H2 as (-> & Hc2 & Hs2 & Hj2).
  cbn [clock_reads sink junk_reads] in *.
  rewrite Hs2, Hs1, Hc1.
  destruct (new_result _ _ _ _) as [sink'|]; [|done]. cbn [mbind option_bind].
  intros [= <-]. cbn [clock_reads sink junk_reads].
  split_and!; [done | lia | congruence].
Qed.






(** X21: [bench] with at least one size has no defined result before the
    first graph was started: the sample of the first size would go through
    the null [current_graph]. *)
Theorem bench_without_graph (env : Env) (ct : ContainerType)
    (u : DurationUnit) (create : CreatePolicy) (tests : list TestPolicy)
    (type : string) (size : Z) (sizes : list Z) (p : Process) :
  current_graph (sink p) = None →
  bench env ct u create tests type (size :: sizes) p = None.
Proof.
  intros Hnull. rewrite bench_cons.
  destruct (bench_size env ct u create tests type p size) as [p1|] eqn:H1;
    [|done].
  apply bench_size_Some in H1 as (Hres & _).
  unfold new_result in Hres. by rewrite Hnull in Hres.
Qed.

End bench_facts.


Lemma bench_without_graph_witness :
  bench (L:=lcg_lib) env_junk (Vector, Small) microseconds CEmpty [TFillBack]
        "vector" [1000]%Z Process_init
  = None.
Proof.
  apply (bench_without_graph (L:=lcg_lib)). reflexivity.
Defined.

(** ** Properties of [r_pow] *)

Section r_pow_facts.
Context {T : Type} `{M : Multiplicative T}.

(** X23: where the product is associative and [T{1}] is a right unit,
    exponents add: [r_pow<m + n>(base)] is
    [r_pow<m>(base) * r_pow<n>(base)]. *)
Theorem r_pow_add (m n : nat) (base : T) :
  (∀ x y z, T_mul x (T_mul y z) = T_mul (T_mul x y) z) →
  (∀ x, T_mul x T_one = x) →
  r_pow (m + n) base = T_mul (r_pow m base) (r_pow n base).
Proof.
  intros Hassoc Hunit. unfold r_pow. induction n as [|n IH].
  - by rewrite Nat.add_0_r, Hunit.
  - rewrite Nat.add_succ_r. simpl. by rewrite IH, Hassoc.
Qed.

End r_pow_facts.

(** X24: on an unsigned type of [w] bits that is not narrower than [int]
    (32 bits), [r_pow<Exp>(base)] is the power [base ^ Exp] reduced modulo
    [2 ^ w]: the recursion multiplies [Exp] times and every product
    wraps. *)
Theorem r_pow_unsigned (w : N) (Exp : nat) (base : N) :
  (32 ≤ w)%N →
  @r_pow N (unsigned_mult w) Exp base = ((base ^ N.of_nat Exp) `mod` 2 ^ w)%N.
Proof.
  intros Hw. unfold r_pow.
  assert (2 ^ w ≠ 0)%N as Hm by (by apply N.pow_nonzero).
  induction Exp as [|e IH].
  - simpl. rewrite N.mod_small; [done|]. apply N.pow_gt_1; lia.
  - cbn [r_pow_op]. rewrite IH. cbn [T_mul unsigned_mult].
    rewrite N.Div0.mul_mod_idemp_l.
    by rewrite Nat2N.inj_succ, N.pow_succ_r', (N.mul_comm base).
Qed.

Lemma r_pow_add_witness :
  @r_pow Z Z_mult (2 + 3) 3%Z
  = (@r_pow Z Z_mult 2 3%Z * @r_pow Z Z_mult 3 3%Z)%Z.
Proof.
  apply (@r_pow_add Z Z_mult 2 3 3%Z).
  - intros x y z. simpl. lia.
  - intros x. simpl. lia.
Defined.

Lemma r_pow_unsigned_witness :
  (32 ≤ 32)%N
  ∧ @r_pow N (unsigned_mult 32) 2 65537%N
    = ((65537 ^ N.of_nat 2) `mod` 2 ^ 32)%N.
Proof. split; [lia|]. apply r_pow_unsigned. lia. Defined.

(** On [unsigned], 65537 squared wraps to 131073. *)
Example r_pow_unsigned_wraps :
  @r_pow N (unsigned_mult 32) 2 65537%N = 131073%N.
Proof. by vm_compute. Qed.

(** ** The benchmark suite is defined *)


Section suite_facts.
Context `{L : StdLib}.

Lemma reachable_run_list tests ct o size s o' s' :
  reachable s → run tests ct o size s = Some (o', s') → reachable s'.
Proof.
  revert o s. induction tests as [|t tests IH]; intros o s Hs; simpl.
  - by intros [= _ <-].
  - destruct (run_policy t ct o size s) as [[o1 s1]|] eqn:Hstep; [|done].
    simpl. apply IH. by eapply reachable_run.
Qed.

Lemma run_policy_defined shape T t o size s :
  policy_ok shape (kind_of o) t = true →
  ∃ o' s', run_policy t (shape, T) o size s = Some (o', s')
           ∧ kind_of o' = kind_of o.
Proof.
  destruct t, o as [c|q]; simpl; try done; intros Hok; try by eauto.
  - apply bool_decide_eq_true_1 in Hok as ->. rewrite decide_True by done.
    by eauto.
  - destruct (RandomSortedInsert_run _ _ _) as [c' g']. by eauto.
Qed.

Lemma run_defined shape T tests o size s :
  forallb (policy_ok shape (kind_of o)) tests = true →
  ∃ o' s', run tests (shape, T) o size s = Some (o', s').
Proof.
  revert o s. induction tests as [|t tests IH]; intros o s; simpl.
  - by eauto.
  - intros [Ht Hrest]%andb_prop.
    destruct (run_policy_defined shape T t o size s Ht)
      as (o1 & s1 & -> & Hkind). simpl.
    apply IH. by rewrite Hkind.
Qed.

Lemma make_kind create ct size s :
  kind_of (make create ct size s).1 = returns_pointer create.
Proof. by destruct create. Qed.

Lemma Remove_after_FilledRandom ct (size : Z) s :
  reachable s → (1000 ≤ size ≤ INT_MAX)%Z →
  ∃ os, run [TRemove] ct (make CFilledRandom ct (to_size_t size) s).1
            (to_size_t size) (make CFilledRandom ct (to_size_t size) s).2
        = Some os.
Proof.
  intros Hs%reachable_cache_inv Hsize. unfold INT_MAX in Hsize.
  rewrite to_size_t_small by lia.
  assert (a <$> (FilledRandom_make ct (Z.to_N size) s).1
          ≡ₚ N.of_nat <$> seq 0 (Z.to_nat size)) as Hperm.
  { unfold FilledRandom_make. cbn [fst].
    rewrite FilledRandom_fill_fmap, fmap_a_mkElem, cache_inv_lookup by done.
    rewrite permutation_of_size_perm by (unfold INT_MAX; lia).
    by rewrite Z_N_nat. }
  destruct (Remove_loop_on_range 1000 0 (Z.to_nat size) _ Hperm)
    as (c' & Hrun & _); [lia|].
  unfold make. unfold FilledRandom_make in *. cbn [fst snd] in *.
  cbn [run run_policy]. unfold Remove_run.
  change (N.of_nat 0) with 0%N in Hrun. rewrite Hrun. by eauto.
Qed.

Lemma trial_defined env shape T create tests sizes size d p :
  config_ok create shape tests sizes = true → size ∈ sizes →
  reachable (statics p) →
  ∃ d' p', trial env (shape, T) create tests (to_size_t size) (d, p)
           = Some (d', p')
           ∧ reachable (statics p') ∧ sink p' = sink p.
Proof.
  intros [_ Hok]%andb_prop Hin Hs. unfold trial.
  assert (∃ os, run tests (shape, T)
                    (make create (shape, T) (to_size_t size) (statics p)).1
                    (to_size_t size)
                    (make create (shape, T) (to_size_t size) (statics p)).2
                = Some os) as [[o' s2] Hrun].
  { assert (forallb (policy_ok shape (returns_pointer create)) tests = true
            ∨ create = CFilledRandom ∧ tests = [TRemove]
              ∧ forallb (λ size, (1000 <=? size)%Z && (size <=? INT_MAX)%Z)
                        sizes = true) as [Hgen|(-> & -> & Hsizes)].
    { destruct create; auto. destruct tests as [|[] [|? ?]]; auto. }
    - destruct (run_defined shape T tests
                  (make create (shape, T) (to_size_t size) (statics p)).1
                  (to_size_t size)
                  (make create (shape, T) (to_size_t size) (statics p)).2)
        as (o' & s' & Hrun); [by rewrite make_kind | by eauto].
    - apply Remove_after_FilledRandom; [done|].
      rewrite forallb_forall in Hsizes.
      specialize (Hsizes size (proj1 (list_elem_of_In _ _) Hin)).
      apply andb_prop in Hsizes as [?%Z.leb_le ?%Z.leb_le]. done. }
  pose proof (reachable_make create (shape, T) (to_size_t size) _ Hs) as Hs1.
  destruct (make create (shape, T) (to_size_t size) (statics p)) as [o s1].
  cbn [fst snd] in *. rewrite Hrun. cbn [mbind option_bind].
  eexists _, _. split_and!; [done | | done].
  cbn [statics]. by eapply reachable_run_list.
Qed.

Lemma new_result_sink_state full serie group value s :
  sink_state (Some full) s →
  ∃ s', new_result serie group value s = Some s'
        ∧ sink_state (Some true) s'
        ∧ length (heap s') = length (heap s).
Proof.
  intros (Hall & front & g & Hh & Hc & Hfront & _).
  unfold new_result. rewrite Hc. cbn [mbind option_bind]. rewrite Hh.
  rewrite lookup_app_r, Nat.sub_diag by done. cbn [lookup list_lookup].
  cbn [mbind option_bind]. eexists. split; [done|].
  rewrite insert_app_r_alt, Nat.sub_diag by done. cbn [insert list_insert].
  split; [|cbn [heap]; by rewrite !length_app].
  split; cbn [heap all_graphs current_graph].
  - by rewrite Hall, Hh, !length_app.
  - eexists front, _. split_and!; [done | by rewrite <- Hc | done |].
    intros _. unfold has_results. cbn [results]. by intros ?%app_nil_r_inv.
Qed.

Lemma bench_size_defined env shape T u create tests type sizes size full p :
  config_ok create shape tests sizes = true → size ∈ sizes →
  reachable (statics p) → sink_state (Some full) (sink p) →
  ∃ p', bench_size env (shape, T) u create tests type p size = Some p'
        ∧ reachable (statics p') ∧ sink_state (Some true) (sink p')
        ∧ length (heap (sink p')) = length (heap (sink p)).
Proof.
  intros Hok Hin Hs Hsink. unfold bench_size.
  change (N.to_nat REPEAT) with 2. cbn [for_loop_opt].
  destruct (trial_defined env shape T create tests sizes size
              (indeterminate env (junk_reads p))
              (mkProcess (statics p) (sink p) (clock_reads p)
                         (S (junk_reads p))) Hok Hin Hs)
    as (d1 & p1 & -> & Hs1 & Hk1).
  cbn [mbind option_bind].
  destruct (trial_defined env shape T create tests sizes size d1 p1 Hok Hin Hs1)
    as (d2 & p2 & -> & Hs2 & Hk2).
  cbn [mbind option_bind]. cbn [sink] in Hk1. rewrite Hk2, Hk1.
  destruct (new_result_sink_state full type (pretty size)
              (emitted_value u d2) (sink p) Hsink) as (s' & -> & Hs' & Hlen).
  cbn [mbind option_bind]. eexists. split; [done|]. by cbn [statics sink].
Qed.

Lemma bench_defined env shape T u create tests type sizes sizes' full p :
  config_ok create shape tests sizes = true → sizes' ⊆ sizes →
  reachable (statics p) → sink_state (Some full) (sink p) →
  ∃ p', bench env (shape, T) u create tests type sizes' p = Some p'
        ∧ reachable (statics p')
        ∧ sink_state (Some (match sizes' with [] => full | _ => true end))
                     (sink p')
        ∧ length (heap (sink p')) = length (heap (sink p)).
Proof.
  intros Hok. revert full p.
  induction sizes' as [|size sizes' IH]; intros full p Hsub Hs Hsink.
  - exists p. by split_and!.
  - rewrite bench_cons.
    destruct (bench_size_defined env shape T u create tests type sizes size
                full p Hok) as (p1 & -> & Hs1 & Hsink1 & Hlen1);
      [apply Hsub; left | done | done |].
    cbn [mbind option_bind].
    destruct (IH true p1) as (p' & -> & Hs' & Hsink' & Hlen');
      [intros z Hz; apply Hsub; by right | done | done |].
    exists p'. split_and!; [done | done | | congruence].
    by destruct sizes'.
Qed.

Lemma exec_statements_cons env T st sts p :
  exec_statements env T (st :: sts) p
  = exec_statement env T st p ≫= exec_statements env T sts.
Proof.
  unfold exec_statements. cbn [foldl mbind option_bind].
  destruct (exec_statement env T st p); [done|]. apply foldl_bind_None.
Qed.

Lemma sink_state_closed full s :
  (full = true ∨ heap s = []) → sink_state (Some full) s → sink_state None s.
Proof.
  intros [->|Hnil] (Hall & front & g & Hh & _ & Hfront & Hg).
  - split; [done|]. rewrite Hh. apply Forall_app. split; [done|].
    constructor; [by apply Hg | constructor].
  - rewrite Hnil in Hh. by destruct front.
Qed.

Lemma new_graph_sink_state n t u s :
  sink_state None s → sink_state (Some false) (new_graph n t u s).
Proof.
  intros (Hall & Hres). split; cbn [heap all_graphs current_graph new_graph].
  - by rewrite length_app, Hall, Nat.add_1_r, seq_S.
  - by eexists (heap s), _.
Qed.

Lemma body_defined env T sts st p :
  body_ok st sts = true →
  reachable (statics p) → sink_state st (sink p) →
  ∃ p', exec_statements env T sts p = Some p'
        ∧ reachable (statics p') ∧ sink_state None (sink p')
        ∧ length (heap (sink p'))
          = length (heap (sink p)) + length (filter is_SGraph sts).
Proof.
  revert st p.
  induction sts as [|[n t u|shape u create tests type sizes] sts IH];
    intros st p Hok Hs Hsink.
  - exists p. split_and!; [done | done | | simpl; lia].
    destruct st as [[]|]; [|done..].
    apply (sink_state_closed true); [by left | done].
  - rewrite exec_statements_cons. cbn [exec_statement mbind option_bind].
    assert (sink_state None (sink p) ∧ body_ok (Some false) sts = true)
      as [Hclosed Hok'].
    { destruct st as [[]|]; simpl in Hok; try done. split; [|done].
      apply (sink_state_closed true); [by left | done]. }
    destruct (IH (Some false)
                (mkProcess (statics p) (new_graph n t u (sink p))
                           (clock_reads p) (junk_reads p)) Hok' Hs)
      as (p' & -> & Hs' & Hsink' & Hlen).
    { by apply new_graph_sink_state. }
    exists p'. split_and!; [done..|].
    rewrite Hlen. cbn [sink heap new_graph]. rewrite length_app.
    rewrite filter_cons_True by done. simpl. lia.
  - rewrite exec_statements_cons. cbn [exec_statement].
    destruct st as [full|]; [|done]. simpl in Hok.
    apply andb_prop in Hok as [Hcfg Hok'].
    destruct (bench_defined env shape T u create tests type sizes sizes full p
                Hcfg) as (p1 & -> & Hs1 & Hsink1 & Hlen1); [done..|].
    cbn [mbind option_bind].
    assert (sink_state (Some true) (sink p1)) as Hsink1'.
    { destruct sizes; [|done]. by unfold config_ok in Hcfg. }
    destruct (IH (Some true) p1 Hok' Hs1 Hsink1')
      as (p' & -> & Hs' & Hsink' & Hlen).
    exists p'. split_and!; [done..|].
    rewrite Hlen, Hlen1. by rewrite filter_cons_False by (by intros ?).
Qed.

End suite_facts.

Section main_facts.
Context `{L : StdLib}.
Variable sizeof_NonTrivial : N.

Lemma bench_type_body_ok T :
  body_ok None (bench_type_body sizeof_NonTrivial T) = true.
Proof.
  destruct T; try reflexivity.
  unfold bench_type_body. cbn [sizeof].
  by destruct (sizeof_NonTrivial =? 8)%N.
Qed.


Lemma bench_type_body_graphs T :
  length (filter is_SGraph (bench_type_body sizeof_NonTrivial T))
  = graphs_for sizeof_NonTrivial T.
Proof.
  unfold graphs_for. destruct T; try reflexivity.
  unfold bench_type_body. cbn [sizeof].
  by destruct (sizeof_NonTrivial =? 8)%N.
Qed.

Lemma bench_types_defined env (types : list ValueType) p :
  reachable (statics p) → sink_state None (sink p) →
  ∃ p', foldl (λ op T, op ≫= bench_type sizeof_NonTrivial env T) (Some p) types
        = Some p'
        ∧ reachable (statics p') ∧ sink_state None (sink p')
        ∧ length (heap (sink p'))
          = length (heap (sink p)) + sum_list (graphs_for sizeof_NonTrivial <$> types).
Proof.
  revert p. induction types as [|T types IH]; intros p Hs Hsink.
  - exists p. split_and!; [done..|]. simpl. lia.
  - cbn [foldl mbind option_bind]. unfold bench_type at 2.
    destruct (body_defined env T (bench_type_body sizeof_NonTrivial T) None p
                (bench_type_body_ok T) Hs Hsink)
      as (p1 & -> & Hs1 & Hsink1 & Hlen1).
    destruct (IH p1 Hs1 Hsink1) as (p' & -> & Hs' & Hsink' & Hlen').
    exists p'. split_and!; [done..|].
    rewrite Hlen', Hlen1, bench_type_body_graphs.
    change (sum_list (graphs_for sizeof_NonTrivial <$> T :: types))
      with (graphs_for sizeof_NonTrivial T + sum_list (graphs_for sizeof_NonTrivial <$> types)). lia.
Qed.

(** X25: the suite as shipped runs to its end in the model, whatever the
    clock shows and whatever the uninitialised durations hold: every policy
    applies to what its creation policy returns, [Remove] is only run on
    permutations of at least 10000 elements, every sample finds a current
    graph and every graph has samples when the charts are written.
    [main] writes 38 charts, 40 were [NonTrivial] as small as [Small]. *)
Theorem main_is_defined (env : Env) :
  ∃ p charts,
    main sizeof_NonTrivial env = Some (p, charts)
    ∧ length charts = 32 + graphs_for sizeof_NonTrivial NonTrivial
    ∧ chart_name <$> charts = name <$> heap (sink p).
Proof.
  unfold main.
  destruct (bench_types_defined env
              [Small; Medium; Large; Huge; Monster; NonTrivial] Process_init)
    as (p & -> & _ & [Hall Hres] & Hlen).
  { apply reachable_init. }
  { by split. }
  cbn [mbind option_bind].
  destruct (output_graphs_defined (heap (sink p)) Hres) as [charts Hc].
  rewrite (proj2 (output_Some_iff (sink p) charts Hall) Hc).
  cbn [mbind option_bind]. exists p, charts. split_and!; [done | |].
  - apply Forall2_length in Hc. rewrite <- Hc, Hlen.
    unfold graphs_for. simpl.
    by destruct (sizeof_NonTrivial =? 8)%N.
  - by apply output_chart_names.
Qed.

End main_facts.

(** ** Instances of the properties above *)

Lemma RandomSortedInsert_keeps_elements_witness :
  ascending [mkElem 5; mkElem 9]
  ∧ ascending
      (RandomSortedInsert_run (L:=lcg_lib) [mkElem 5; mkElem 9] 3 7%N).1.
Proof.
  assert (ascending [mkElem 5; mkElem 9]) as H.
  { unfold ascending. repeat constructor. simpl. lia. }
  split; [exact H|].
  exact (proj2 (proj2 (RandomSortedInsert_keeps_elements (L:=lcg_lib)
                         [mkElem 5; mkElem 9] 3 7%N)) H).
Defined.

Lemma output_graph_contents_witness :
  let g := mkGraph "find_8" "find - 8 byte" "us"
             [mkResult "vector" "9" 1; mkResult "list" "9" 2;
              mkResult "vector" "9" 5; mkResult "vector" "10" 7] in
  ∃ ch, output_graph (L:=lcg_lib) g = Some ch
        ∧ chart_name ch = "find_8"
        ∧ length (rows ch) = 2
        ∧ Forall (λ row, ∃ ses,
                    NoDup ses
                    ∧ (∀ se, se ∈ ses
                             ↔ is_Some (lookup2 (compute_values g) row.1 se))
                    ∧ Some <$> row.2 = lookup2 (compute_values g) row.1 <$> ses)
                 (rows ch).
Proof.
  intros g.
  destruct (output_graph (L:=lcg_lib) g) as [ch|] eqn:Hch;
    [|by vm_compute in Hch].
  exists ch.
  destruct (output_graph_contents (L:=lcg_lib) g ch Hch) as (Hname & Hrows & _).
  split_and!; [reflexivity | exact Hname | | exact Hrows].
  vm_compute in Hch. injection Hch as <-. reflexivity.
Defined.

Lemma output_one_chart_per_graph_witness :
  all_graphs width_graphs = seq 0 (length (heap width_graphs))
  ∧ (is_Some (output (L:=lcg_lib) width_graphs)
     ↔ Forall (λ g, results g ≠ []) (heap width_graphs)).
Proof.
  assert (all_graphs width_graphs = seq 0 (length (heap width_graphs))) as H
    by reflexivity.
  split; [exact H|].
  exact (proj1 (output_one_chart_per_graph (L:=lcg_lib) width_graphs H)).
Defined.
